(** * api-batcher: strategies (strategy.py) and the batcher (batcher.py)

    A shallow embedding of the two Python modules.  A strategy applies an
    API action to a sequence of entities; the batcher queues entities and
    pushes them through its strategy, POST first and SYNC second.

    Python exceptions are an explicit result, the remote world reached by
    the entities' methods is threaded as state, and every call of an
    entity method or of the logging module is recorded in a trace. *)

From stdpp Require Import base strings list gmap pretty.

Open Scope string_scope.
Open Scope list_scope.
Open Scope nat_scope.

(** ** The entity interface

    [getattr(entity, action)()]: an entity exposes one callable per action
    name.  The call does I/O on the remote world and either returns a value
    or raises.  Nothing else is known about entities. *)
Class EntityAPI := {
  Entity : Type;
  World : Type;
  Value : Type;
  EntityError : Type;
  invoke : Entity → string → World → World * (EntityError + Value)
}.

Module Strategy.

Definition API_POST : string := "post".
Definition API_SYNC : string := "sync".

(** The three concrete classes of strategy.py. *)
Inductive StrategyClass := SequentialStrategy | ConcurrentStrategy | BatchStrategy.

#[global] Instance StrategyClass_eq_dec : EqDecision StrategyClass.
Proof. solve_decision. Defined.

Section WithEntities.
Context `{EntityAPI}.

(** Exceptions that leave a call: the built-in ones the code raises itself
    and whatever an entity method raised. *)
Inductive exn :=
| RuntimeError (msg : string)
| NotImplementedError (msg : string)
| TypeError (msg : string)
| EntityFailure (x : EntityError).

(** The spec's Outcome: success with the resulting value, or failure with
    the entity and the error. *)
Inductive Outcome :=
| Success (entity : Entity) (v : Value)
| Failure (entity : Entity) (x : EntityError).

(** What a call hands back to its caller: None, which is what a method
    without a [return] yields, or a sequence of outcomes, which is what the
    spec expects of [do]. *)
Inductive pyval :=
| PyNone
| PyOutcomes (outs : list Outcome).

Inductive res (A : Type) :=
| Ok (a : A)
| Raise (x : exn).
#[global] Arguments Ok {A} a.
#[global] Arguments Raise {A} x.

(** Observable events, in the order the main thread and the workers
    produce them. *)
Inductive event :=
| EvCall (entity : Entity) (action : string)
| EvLogError (entity : Entity) (action : string) (x : EntityError)
| EvLogInfo (v : Value) (action : string)
| EvDo (cls : StrategyClass) (action : string) (entities : list Entity).

Record state := mkState { world : World; trace : list event }.

(** State and exception monad. *)
Definition M (A : Type) : Type := state → state * res A.

#[global] Instance M_ret : MRet M := λ A a s, (s, Ok a).
#[global] Instance M_bind : MBind M := λ A B f m s,
  match m s with
  | (s', Ok a) => f a s'
  | (s', Raise x) => (s', Raise x)
  end.

Definition raise {A} (x : exn) : M A := λ s, (s, Raise x).

Definition emit (ev : event) : M () :=
  λ s, (mkState (world s) (trace s ++ [ev]), Ok ()).

(** The names the spec gives to the failures. *)
Definition InvalidAction (action : string) : exn :=
  RuntimeError ("Invalid action " +:+ action).
Definition EmptyInput : exn := RuntimeError "No entities to process".
Definition NotImplemented : exn := NotImplementedError "Come back later".

(** *** BaseStrategy *)

Definition valid_actions : list string := [API_POST; API_SYNC].

Definition BaseStrategy_do (action : string) (entities : list Entity) : M () :=
  if bool_decide (action ∈ valid_actions) then
    match entities with
    | [] => raise (RuntimeError "No entities to process")
    | _ :: _ => mret ()
    end
  else raise (RuntimeError ("Invalid action " +:+ action)).

(** *** SequentialStrategy *)

(** [getattr(entity, action)()] in the calling thread: an exception of the
    method propagates. *)
Definition call (entity : Entity) (action : string) : M Value :=
  λ s, match invoke entity action (world s) with
       | (w, inr v) => (mkState w (trace s ++ [EvCall entity action]), Ok v)
       | (w, inl x) =>
           (mkState w (trace s ++ [EvCall entity action]), Raise (EntityFailure x))
       end.

(** [for entity in entities: getattr(entity, action)()] *)
Fixpoint for_each (action : string) (entities : list Entity) : M () :=
  match entities with
  | [] => mret ()
  | entity :: rest => call entity action ;; for_each action rest
  end.

Definition SequentialStrategy_do (action : string) (entities : list Entity)
  : M pyval :=
  BaseStrategy_do action entities ;;
  for_each action entities ;;
  mret PyNone.

(** *** ConcurrentStrategy

    One future per entity, numbered by position.  The worker threads are
    scheduled by the interpreter, so the run is a function of a schedule:
    [Run i] is the moment the method submitted as future [i] takes effect
    on the world and the future completes, [Yield i] the moment
    [as_completed] hands future [i] to the loop body.  A schedule is valid
    for n entities when every future runs once, is yielded once, and is
    yielded only after it ran. *)
Inductive step := Run (i : nat) | Yield (i : nat).

Definition schedule := list step.

Definition runs (sch : schedule) : list nat :=
  omap (λ st, match st with Run i => Some i | Yield _ => None end) sch.

Definition yields (sch : schedule) : list nat :=
  omap (λ st, match st with Yield i => Some i | Run _ => None end) sch.

Fixpoint well_ordered (done : list nat) (sch : schedule) : bool :=
  match sch with
  | [] => true
  | Run i :: rest => well_ordered (i :: done) rest
  | Yield i :: rest => bool_decide (i ∈ done) && well_ordered done rest
  end.

Definition valid_schedule (sch : schedule) (n : nat) : Prop :=
  runs sch ≡ₚ seq 0 n ∧ yields sch ≡ₚ seq 0 n ∧ well_ordered [] sch = true.

(** The body of a worker: the method runs and the future keeps its result
    or its exception. *)
Definition run_worker (action : string) (entities : list Entity)
  (futs : gmap nat (EntityError + Value)) (i : nat)
  : M (gmap nat (EntityError + Value)) :=
  match entities !! i with
  | Some entity =>
      λ s, let '(w, r) := invoke entity action (world s) in
           (mkState w (trace s ++ [EvCall entity action]), Ok (<[i := r]> futs))
  | None => mret futs
  end.

(** The log record written for a finished future. *)
Definition log_record (action : string) (entity : Entity)
  (r : EntityError + Value) : event :=
  match r with
  | inl x => EvLogError entity action x
  | inr v => EvLogInfo v action
  end.

(** One turn of the [as_completed] loop. *)
Definition report (action : string) (entities : list Entity)
  (futs : gmap nat (EntityError + Value)) (i : nat) : M () :=
  match entities !! i, futs !! i with
  | Some entity, Some r => emit (log_record action entity r)
  | _, _ => mret ()
  end.

(** The [with] block: the pool runs the workers while the main thread
    walks [as_completed]; leaving the block waits for every worker. *)
Fixpoint run_schedule (action : string) (entities : list Entity)
  (sch : schedule) (futs : gmap nat (EntityError + Value))
  : M (gmap nat (EntityError + Value)) :=
  match sch with
  | [] => mret futs
  | Run i :: rest =>
      futs' ← run_worker action entities futs i;
      run_schedule action entities rest futs'
  | Yield i :: rest =>
      report action entities futs i ;;
      run_schedule action entities rest futs
  end.

Definition ConcurrentStrategy_do (sch : schedule) (action : string)
  (entities : list Entity) : M pyval :=
  BaseStrategy_do action entities ;;
  run_schedule action entities sch ∅ ;;
  mret PyNone.

(** *** BatchStrategy *)

Definition BatchStrategy_do (action : string) (entities : list Entity)
  : M pyval :=
  raise (NotImplementedError "Come back later").

(** Method resolution of [do] on an instance of class [cls]. *)
Definition do (cls : StrategyClass) (sch : schedule) (action : string)
  (entities : list Entity) : M pyval :=
  match cls with
  | SequentialStrategy => SequentialStrategy_do action entities
  | ConcurrentStrategy => ConcurrentStrategy_do sch action entities
  | BatchStrategy => BatchStrategy_do action entities
  end.

(** *** Reading a trace *)

(** The calls that one pass over [entities] leaves in the trace. *)
Definition call_events (action : string) (entities : list Entity) : list event :=
  (λ entity, EvCall entity action) <$> entities.

(** The action an event belongs to. *)
Definition event_action (ev : event) : string :=
  match ev with
  | EvCall _ action | EvLogError _ action _ | EvLogInfo _ action
  | EvDo _ action _ => action
  end.

Definition is_call (ev : event) : bool :=
  match ev with EvCall _ _ => true | _ => false end.

Definition is_log (ev : event) : bool :=
  match ev with EvLogError _ _ _ | EvLogInfo _ _ => true | _ => false end.

(** The record that the [as_completed] loop writes for future [i]. *)
Definition log_at (action : string) (entities : list Entity)
  (futs : gmap nat (EntityError + Value)) (i : nat) : option event :=
  match entities !! i, futs !! i with
  | Some entity, Some r => Some (log_record action entity r)
  | _, _ => None
  end.

(** Events that all belong to one action. *)
Definition all_about (action : string) (evs : list event) : Prop :=
  Forall (λ ev, event_action ev = action) evs.

(** The world that the sequential loop leaves after it called the method
    of every entity of [entities], starting in [w]. *)
Fixpoint world_after (action : string) (entities : list Entity) (w : World)
  : World :=
  match entities with
  | [] => w
  | entity :: rest => world_after action rest (invoke entity action w).1
  end.

(** In the run of the sequential loop from [w], the method of every entity
    returns: each one in the world that the calls before it have left. *)
Fixpoint all_return (action : string) (entities : list Entity) (w : World)
  : Prop :=
  match entities with
  | [] => True
  | entity :: rest =>
      (∃ v, (invoke entity action w).2 = inr v) ∧
      all_return action rest (invoke entity action w).1
  end.

(** The world after the workers of the futures [order] took effect, in
    that order, starting in [w]. *)
Fixpoint apply_runs (action : string) (entities : list Entity)
  (order : list nat) (w : World) : World :=
  match order with
  | [] => w
  | i :: rest =>
      match entities !! i with
      | Some entity => apply_runs action entities rest (invoke entity action w).1
      | None => apply_runs action entities rest w
      end
  end.

End WithEntities.

End Strategy.

Module Batcher.
Import Strategy.

(** A value that can sit in [self.strategy]: a class object (what the
    literal table of [API_STRATEGY] holds) or an instance, identified by
    its address. *)
Inductive StrategyVal :=
| ClassObj (cls : StrategyClass)
| InstanceOf (cls : StrategyClass) (addr : nat).

#[global] Instance StrategyVal_eq_dec : EqDecision StrategyVal.
Proof. solve_decision. Defined.

(** Module-level state of batcher.py: the [API_STRATEGY] defaultdict, keyed
    by what [os.getenv] returns, and the allocator of instances. *)
Record globals := mkGlobals {
  API_STRATEGY : gmap (option string) StrategyVal;
  next_addr : nat
}.

(** [cls()] *)
Definition new (cls : StrategyClass) (g : globals) : globals * StrategyVal :=
  (mkGlobals (API_STRATEGY g) (S (next_addr g)), InstanceOf cls (next_addr g)).

(** [API_STRATEGY[key]]: a missing key calls the default factory
    [ConcurrentStrategy], stores what it built under the key and returns
    it. *)
Definition defaultdict_getitem (key : option string) (g : globals)
  : globals * StrategyVal :=
  match API_STRATEGY g !! key with
  | Some v => (g, v)
  | None =>
      let '(g', v) := new ConcurrentStrategy g in
      (mkGlobals (<[key := v]> (API_STRATEGY g')) (next_addr g'), v)
  end.

(** The table as the module body builds it. *)
Definition initial_globals : globals :=
  mkGlobals
    (<[Some "sequential" := ClassObj SequentialStrategy]>
       (<[Some "concurrent" := ClassObj ConcurrentStrategy]>
          (<[Some "batch" := ClassObj BatchStrategy]> ∅)))
    0.

(** The configuration values the literal table knows. *)
Definition recognized (key : option string) : option StrategyClass :=
  if decide (key = Some "sequential") then Some SequentialStrategy
  else if decide (key = Some "concurrent") then Some ConcurrentStrategy
  else if decide (key = Some "batch") then Some BatchStrategy
  else None.

(** An object built after the module was in state [g]. *)
Definition fresh (g : globals) (v : StrategyVal) : Prop :=
  ∃ cls addr, v = InstanceOf cls addr ∧ next_addr g ≤ addr.

(** What every module state keeps true of the table: the literal entries
    stay, and any other entry is an instance that the default factory
    built earlier. *)
Definition table_inv (g : globals) : Prop :=
  (∀ key cls, recognized key = Some cls →
     API_STRATEGY g !! key = Some (ClassObj cls)) ∧
  (∀ key v, recognized key = None → API_STRATEGY g !! key = Some v →
     ∃ addr, v = InstanceOf ConcurrentStrategy addr ∧ addr < next_addr g).

(** Module states that running code can produce: instances get built and
    the table gets looked up. *)
Inductive reachable : globals → Prop :=
| reach_initial : reachable initial_globals
| reach_new cls g : reachable g → reachable (new cls g).1
| reach_getitem key g : reachable g → reachable (defaultdict_getitem key g).1.

Section WithEntities.
Context `{EntityAPI}.

Record ApiBatcher := mkApiBatcher {
  entities : list Entity;
  strategy : StrategyVal
}.

Definition EmptyQueue : exn := RuntimeError "No entity in the queue".

(** [ApiBatcher.__init__]: [strategy or API_STRATEGY[os.getenv('API_MODE')]].
    A strategy object is truthy, so the table is read only when no strategy
    was passed.  (The class docstring names the sequential strategy as the
    default; the factory of the table is ConcurrentStrategy.) *)
Definition init (injected : option StrategyVal) (API_MODE : option string)
  (g : globals) : globals * ApiBatcher :=
  match injected with
  | Some s => (g, mkApiBatcher [] s)
  | None =>
      let '(g', s) := defaultdict_getitem API_MODE g in
      (g', mkApiBatcher [] s)
  end.

(** A method of the batcher: it may update the object, runs in the state
    and exception monad, and leaves the object as it is when it raises. *)
Definition method (A : Type) : Type :=
  ApiBatcher → state → ApiBatcher * state * res A.

Definition enqueue (new_entity : Entity) : method pyval :=
  λ self s,
    (mkApiBatcher (entities self ++ [new_entity]) (strategy self), s, Ok PyNone).

(** [self.strategy.do(action, entities)]: [do] looked up on a class object
    is not bound and the call raises before the body is entered; on an
    instance the body of its class runs. *)
Definition strategy_do (sch : schedule) (s : StrategyVal) (action : string)
  (entities : list Entity) : M pyval :=
  match s with
  | ClassObj _ =>
      raise (TypeError "unbound method do() must be called with an instance")
  | InstanceOf cls _ =>
      emit (EvDo cls action entities) ;; do cls sch action entities
  end.

Definition push (sch_post sch_sync : schedule) : method pyval :=
  λ self s,
    let body : M pyval :=
      match entities self with
      | [] => raise (RuntimeError "No entity in the queue")
      | _ :: _ =>
          strategy_do sch_post (strategy self) API_POST (entities self) ;;
          strategy_do sch_sync (strategy self) API_SYNC (entities self) ;;
          mret PyNone
      end in
    let '(s', r) := body s in
    (self, s', r).

End WithEntities.

End Batcher.

(** ** A concrete entity universe

    Entities are numbers, the remote world is the list of requests it
    received, and the odd entities are rejected by the remote end. *)
Module Demo.
Import Strategy Batcher.

#[export] Instance demo_api : EntityAPI := {|
  Entity := nat;
  World := list (nat * string);
  Value := nat;
  EntityError := string;
  invoke := λ entity action w,
    (w ++ [(entity, action)],
     if Nat.even entity then inr entity else inl "rejected")
|}.

Definition s0 : state := mkState [] [].
Definition sch2 : schedule := [Run 1; Yield 1; Run 0; Yield 0].
Definition sch3 : schedule := [Run 2; Run 0; Yield 0; Run 1; Yield 1; Yield 2].

End Demo.

(** ** Clients of the batcher

    What the callers of batcher.py do with it: the enqueue loop of the
    main block and of the class docstring. *)
Module Client.
Import Strategy Batcher.

Section WithEntities.
Context `{EntityAPI}.

(** The info records of the concurrent strategy. *)
Definition is_info (ev : event) : bool :=
  match ev with EvLogInfo _ _ => true | _ => false end.

(** [for entity in new_entities: api.enqueue(entity)] *)
Fixpoint enqueue_all (new_entities : list Entity) : method pyval :=
  λ self s,
    match new_entities with
    | [] => (self, s, Ok PyNone)
    | entity :: rest =>
        let '(self', s', _) := enqueue entity self s in
        enqueue_all rest self' s'
    end.

End WithEntities.

End Client.

(** ** The Post entity of batcher.py

    The methods of [Post] call the requests module and [random.randint].
    What the network answers and what the generator draws is not decided by
    the code: the world carries both as scripts that the calls consume. *)
Module PostEntity.
Import Strategy.

(** The calls made through the requests module. *)
Inductive request :=
| HttpGet (url : string)
| HttpPost (url : string) (form : gmap string string).

(** A Post object: [self.data] and [self.id], None until posted. *)
Record Post := mkPost { data : string; id : option nat }.

Definition root_url : string := "http://jsonplaceholder.typicode.com/".

(** The objects by address, the requests made so far, what the network does
    with the coming requests (None: a response comes back, Some err: the
    call raises; a response comes back once the script is used up) and the
    coming draws of the generator. *)
Record net := mkNet {
  heap : gmap nat Post;
  sent : list request;
  replies : list (option string);
  randoms : list nat
}.

(** [requests.get(...)] and [requests.post(...)]: the response is dropped
    by the callers, so only a raised error is kept. *)
Definition requests_call (r : request) (w : net) : net * option string :=
  match replies w with
  | [] => (mkNet (heap w) (sent w ++ [r]) [] (randoms w), None)
  | reply :: rest => (mkNet (heap w) (sent w ++ [r]) rest (randoms w), reply)
  end.

(** [random.randint(a, b)]: some n with a <= n <= b. *)
Definition randint (a b : nat) (w : net) : net * nat :=
  match randoms w with
  | [] => (w, a)
  | r :: rest =>
      (mkNet (heap w) (sent w) (replies w) rest, a + r mod (b - a + 1))
  end.

(** [str(self.id)] *)
Definition py_str (o : option nat) : string :=
  match o with
  | None => "None"
  | Some n => pretty n
  end.


(** The request of [Post.post] for an object with data [d]. *)
Definition post_request (d : string) : request :=
  HttpPost (root_url +:+ "/posts") (<["title" := d]> (<["body" := d]> ∅)).

(** The request of [Post.sync] for an object with id [o]. *)
Definition sync_request (o : option nat) : request :=
  HttpGet (root_url +:+ "/posts/" +:+ py_str o).

(** The request that the method named [action] makes for the object [p]. *)
Definition method_request (action : string) (p : Post) : request :=
  if decide (action = API_POST) then post_request (data p)
  else sync_request (id p).

Definition Post_sync (self : nat) (w : net) : net * (string + ()) :=
  match heap w !! self with
  | None => (w, inl "no such object")
  | Some p =>
      let '(w1, reply) := requests_call (sync_request (id p)) w in
      match reply with
      | Some err => (w1, inl err)
      | None => (w1, inr ())
      end
  end.

Definition Post_post (self : nat) (w : net) : net * (string + ()) :=
  match heap w !! self with
  | None => (w, inl "no such object")
  | Some p =>
      let '(w1, reply) := requests_call (post_request (data p)) w in
      match reply with
      | Some err => (w1, inl err)
      | None =>
          let '(w2, n) := randint 0 100 w1 in
          (mkNet (<[self := mkPost (data p) (Some n)]> (heap w2))
             (sent w2) (replies w2) (randoms w2),
           inr ())
      end
  end.

Definition Post_save (self : nat) (w : net) : net * (string + ()) :=
  (w, inr ()).

(** [getattr(entity, action)()] on a Post.  The strategies look up only
    the names of [valid_actions]. *)
#[export] Instance post_api : EntityAPI := {|
  Entity := nat;
  World := net;
  Value := ();
  EntityError := string;
  invoke := λ self action w,
    if decide (action = "post") then Post_post self w
    else if decide (action = "sync") then Post_sync self w
    else if decide (action = "save") then Post_save self w
    else (w, inl "not a method of Post")
|}.

(** All the scripted replies are responses: the network never raises. *)
Definition network_up (w : net) : Prop := Forall (λ reply, reply = None) (replies w).

(** The coming [n] requests all raise. *)
Definition network_down (n : nat) (w : net) : Prop :=
  n ≤ length (replies w) ∧ Forall is_Some (take n (replies w)).

End PostEntity.

(** ** The main block of batcher.py

    Each mode of the main block builds a batcher on a new strategy
    instance, fills it with [dataset_size] Posts named post0, post1, ...
    and pushes.  The prints and the timing around the calls are left out. *)
Module Main.
Import Strategy Batcher PostEntity.




End Main.

(** ** More concrete worlds

    Small worlds of two Posts. *)
Module PostDemo.
Import Strategy Batcher PostEntity.

Definition two_posts : gmap nat Post :=
  <[0 := mkPost "first" None]> (<[1 := mkPost "second" (Some 5)]> ∅).

(** The network answers, and the generator will draw 7 and 250. *)
Definition w_up : net := mkNet two_posts [] [None; None] [7; 250].

(** The next four requests time out. *)
Definition w_down : net :=
  mkNet two_posts []
    [Some "timeout"; Some "timeout"; Some "timeout"; Some "timeout"] [7].

(** The network answers three requests and lets the fourth time out. *)
Definition w_flaky : net :=
  mkNet two_posts [] [None; None; None; Some "timeout"] [7; 250].

Definition s_up : state := mkState w_up [].
Definition s_flaky : state := mkState w_flaky [].
Definition s_down : state := mkState w_down [].

Definition sch : schedule := [Run 1; Run 0; Yield 0; Yield 1].

(** A batcher on the sequential strategy with both Posts queued. *)
Definition seq_batcher : ApiBatcher :=
  mkApiBatcher [0; 1] (InstanceOf SequentialStrategy 0).

End PostDemo.

(** * Properties of the strategies *)
Module StrategyProofs.
Import Strategy.

Section WithEntities.
Context `{EntityAPI}.

Implicit Types (action : string) (entities : list Entity) (s : state).

Lemma bind_Ok {A B} (m : M A) (f : A → M B) s s' a :
  m s = (s', Ok a) → (m ≫= f) s = f a s'.
Proof. intros Hm. unfold mbind, M_bind. by rewrite Hm. Qed.

Lemma bind_Raise {A B} (m : M A) (f : A → M B) s s' x :
  m s = (s', Raise x) → (m ≫= f) s = (s', Raise x).
Proof. intros Hm. unfold mbind, M_bind. by rewrite Hm. Qed.

Lemma valid_actions_spec action :
  action ∈ valid_actions ↔ action = API_POST ∨ action = API_SYNC.
Proof. unfold valid_actions. by rewrite elem_of_cons, list_elem_of_singleton. Qed.

Lemma BaseStrategy_do_invalid action entities s :
  action ∉ valid_actions →
  BaseStrategy_do action entities s = (s, Raise (InvalidAction action)).
Proof.
  intros Hbad. unfold BaseStrategy_do.
  by rewrite bool_decide_eq_false_2.
Qed.

Lemma BaseStrategy_do_empty action s :
  action ∈ valid_actions →
  BaseStrategy_do action [] s = (s, Raise EmptyInput).
Proof.
  intros Hin. unfold BaseStrategy_do.
  by rewrite bool_decide_eq_true_2.
Qed.

Lemma BaseStrategy_do_pass action entities s :
  action ∈ valid_actions → entities ≠ [] →
  BaseStrategy_do action entities s = (s, Ok ()).
Proof.
  intros Hin Hne. unfold BaseStrategy_do.
  rewrite bool_decide_eq_true_2 by done.
  by destruct entities.
Qed.

(** The sequential loop. *)

Lemma call_Ok entity action s w v :
  invoke entity action (world s) = (w, inr v) →
  call entity action s = (mkState w (trace s ++ [EvCall entity action]), Ok v).
Proof. intros Hi. unfold call. by rewrite Hi. Qed.

Lemma call_Raise entity action s w x :
  invoke entity action (world s) = (w, inl x) →
  call entity action s
  = (mkState w (trace s ++ [EvCall entity action]), Raise (EntityFailure x)).
Proof. intros Hi. unfold call. by rewrite Hi. Qed.

Lemma for_each_Ok action entities s s' :
  for_each action entities s = (s', Ok ()) →
  trace s' = trace s ++ call_events action entities.
Proof.
  revert s. induction entities as [|entity rest IH]; intros s; simpl.
  - intros [= <-]. by rewrite app_nil_r.
  - destruct (invoke entity action (world s)) as [w [x|v]] eqn:Hi.
    + rewrite (bind_Raise _ _ _ _ _ (call_Raise _ _ _ _ _ Hi)). discriminate.
    + rewrite (bind_Ok _ _ _ _ _ (call_Ok _ _ _ _ _ Hi)).
      intros Hrest. apply IH in Hrest. rewrite Hrest. simpl.
      by rewrite <- app_assoc.
Qed.

Lemma for_each_all_return action entities s :
  all_return action entities (world s) →
  for_each action entities s
  = (mkState (world_after action entities (world s))
       (trace s ++ call_events action entities),
     Ok ()).
Proof.
  revert s. induction entities as [|entity rest IH]; intros s; simpl.
  - intros _. rewrite app_nil_r. by destruct s.
  - intros [[v Hv] Hrest].
    destruct (invoke entity action (world s)) as [w r] eqn:Hi.
    simpl in Hv, Hrest. subst r.
    rewrite (bind_Ok _ _ _ _ _ (call_Ok _ _ _ _ _ Hi)).
    rewrite (IH (mkState w (trace s ++ [EvCall entity action])) Hrest).
    simpl. by rewrite <- app_assoc.
Qed.

Lemma for_each_fails action pre entity post s s1 w x :
  for_each action pre s = (s1, Ok ()) →
  invoke entity action (world s1) = (w, inl x) →
  for_each action (pre ++ entity :: post) s
  = (mkState w (trace s ++ call_events action pre ++ [EvCall entity action]),
     Raise (EntityFailure x)).
Proof.
  revert s. induction pre as [|e pre IH]; intros s; simpl.
  - intros [= <-] Hi.
    by rewrite (bind_Raise _ _ _ _ _ (call_Raise _ _ _ _ _ Hi)).
  - destruct (invoke e action (world s)) as [w0 [x0|v0]] eqn:He.
    + rewrite (bind_Raise _ _ _ _ _ (call_Raise _ _ _ _ _ He)). discriminate.
    + rewrite !(bind_Ok _ _ _ _ _ (call_Ok _ _ _ _ _ He)).
      intros Hpre Hi. rewrite (IH _ Hpre Hi). simpl.
      by rewrite <- app_assoc.
Qed.

(** Looking the futures up by position visits every entity once. *)
Lemma pick_seq entities (rest : list Entity) start :
  (∀ j entity, rest !! j = Some entity → entities !! (start + j) = Some entity) →
  omap (entities !!.) (seq start (length rest)) = rest.
Proof.
  revert start. induction rest as [|entity rest IH]; intros start Hsub; simpl.
  - done.
  - pose proof (Hsub 0 entity eq_refl) as H0. rewrite Nat.add_0_r in H0.
    rewrite H0. f_equal. apply IH.
    intros j e Hj. replace (S start + j) with (start + S j) by lia.
    by apply Hsub.
Qed.


(** Every event of a pass carries the action of the pass. *)

Lemma filter_calls action entities :
  filter is_call (call_events action entities) = call_events action entities.
Proof.
  induction entities as [|entity rest IH]; simpl; [done|].
  rewrite filter_cons_True by done. by rewrite IH.
Qed.

Lemma log_record_is_log action entity r : is_log (log_record action entity r).
Proof. destruct r; exact I. Qed.

Lemma log_record_not_call action entity r : ¬ is_call (log_record action entity r).
Proof. destruct r; simpl; tauto. Qed.

Lemma log_record_action action entity r :
  event_action (log_record action entity r) = action.
Proof. by destruct r. Qed.

(** The worker pool and the [as_completed] loop, under any schedule. *)
Lemma run_schedule_trace action entities sch futs s :
  ∃ s' futs' evs,
    run_schedule action entities sch futs s = (s', Ok futs') ∧
    trace s' = trace s ++ evs ∧
    all_about action evs.
Proof.
  revert futs s. induction sch as [|[i|i] rest IH]; intros futs s; simpl.
  - exists s, futs, []. split_and!; [done|by rewrite app_nil_r|constructor].
  - unfold run_worker. destruct (entities !! i) as [entity|].
    + unfold mbind, M_bind.
      destruct (invoke entity action (world s)) as [w r].
      set (s1 := mkState w (trace s ++ [EvCall entity action])).
      destruct (IH (<[i := r]> futs) s1) as (s' & futs' & evs & Hrun & Htr & Habout).
      exists s', futs', (EvCall entity action :: evs). split_and!; [done| |].
      * rewrite Htr. simpl. by rewrite <- app_assoc.
      * by constructor.
    + apply IH.
  - unfold report.
    destruct (entities !! i) as [entity|]; [destruct (futs !! i) as [r|]|];
      [|apply IH..].
    set (s1 := mkState (world s) (trace s ++ [log_record action entity r])).
    destruct (IH futs s1) as (s' & futs' & evs & Hrun & Htr & Habout).
    exists s', futs', (log_record action entity r :: evs). split_and!; [done| |].
    + rewrite Htr. simpl. by rewrite <- app_assoc.
    + constructor; [apply log_record_action|done].
Qed.

(** Under a schedule that runs every future once and yields it after it
    ran, the calls are those of the futures run and the log records those
    of the futures yielded. *)
Lemma run_schedule_valid action entities sch futs s done :
  NoDup (runs sch) →
  (∀ i, i ∈ runs sch → futs !! i = None) →
  (∀ i, i ∈ done → i < length entities → is_Some (futs !! i)) →
  well_ordered done sch = true →
  ∃ s' futs' evs,
    run_schedule action entities sch futs s = (s', Ok futs') ∧
    futs ⊆ futs' ∧
    (∀ i, i ∈ runs sch → i < length entities → is_Some (futs' !! i)) ∧
    trace s' = trace s ++ evs ∧
    filter is_call evs = call_events action (omap (entities !!.) (runs sch)) ∧
    filter is_log evs = omap (log_at action entities futs') (yields sch).
Proof.
  revert futs s done.
  induction sch as [|[i|i] rest IH]; intros futs s done Hnodup Hnew Hdone Hord.
  - exists s, futs, []. simpl. split_and!; try done.
    + set_solver.
    + by rewrite app_nil_r.
  - change (runs (Run i :: rest)) with (i :: runs rest) in *.
    apply NoDup_cons in Hnodup as [Hi Hnodup]. simpl in Hord.
    cbn [run_schedule]. unfold run_worker.
    destruct (entities !! i) as [entity|] eqn:Hent.
    + unfold mbind at 1, M_bind at 1.
      destruct (invoke entity action (world s)) as [w r].
      set (s1 := mkState w (trace s ++ [EvCall entity action])).
      destruct (IH (<[i := r]> futs) s1 (i :: done)) as
        (s' & futs' & evs & Hrun & Hsub & Hall & Htr & Hcalls & Hlogs);
        [done| | |done|].
      { intros j Hj. rewrite lookup_insert_ne by set_solver.
        apply Hnew. by right. }
      { intros j [->|Hj]%elem_of_cons Hlt.
        - rewrite lookup_insert_eq. by eexists.
        - destruct (decide (i = j)) as [->|Hne].
          + rewrite lookup_insert_eq. by eexists.
          + rewrite lookup_insert_ne by done. by apply Hdone. }
      assert (futs ⊆ <[i := r]> futs) as Hins.
      { apply insert_subseteq, Hnew. by left. }
      exists s', futs', (EvCall entity action :: evs). split_and!.
      * done.
      * by etrans.
      * intros j [->|Hj]%elem_of_cons Hlt; [|by apply Hall].
        exists r. eapply lookup_weaken; [|done]. by rewrite lookup_insert_eq.
      * rewrite Htr. simpl. by rewrite <- app_assoc.
      * rewrite filter_cons_True by done. rewrite Hcalls.
        simpl. by rewrite Hent.
      * rewrite filter_cons_False by (simpl; tauto). exact Hlogs.
    + destruct (IH futs s (i :: done)) as
        (s' & futs' & evs & Hrun & Hsub & Hall & Htr & Hcalls & Hlogs);
        [done| | |done|].
      { intros j Hj. apply Hnew. by right. }
      { intros j [->|Hj]%elem_of_cons Hlt; [|by apply Hdone].
        apply lookup_lt_is_Some_2 in Hlt. rewrite Hent in Hlt.
        by destruct Hlt. }
      exists s', futs', evs. split_and!; try done.
      * intros j [->|Hj]%elem_of_cons Hlt; [|by apply Hall].
        apply lookup_lt_is_Some_2 in Hlt. rewrite Hent in Hlt.
        by destruct Hlt.
      * rewrite Hcalls. simpl. by rewrite Hent.
  - change (runs (Yield i :: rest)) with (runs rest) in *.
    change (yields (Yield i :: rest)) with (i :: yields rest).
    simpl in Hord. apply andb_prop in Hord as [Hi%bool_decide_eq_true Hord].
    cbn [run_schedule]. unfold report.
    destruct (entities !! i) as [entity|] eqn:Hent.
    + destruct (Hdone i Hi) as [r Hr].
      { apply lookup_lt_is_Some_1. by eexists. }
      rewrite Hr.
      set (s1 := mkState (world s) (trace s ++ [log_record action entity r])).
      destruct (IH futs s1 done) as
        (s' & futs' & evs & Hrun & Hsub & Hall & Htr & Hcalls & Hlogs);
        [done..|].
      exists s', futs', (log_record action entity r :: evs). split_and!; try done.
      * rewrite Htr. simpl. by rewrite <- app_assoc.
      * rewrite filter_cons_False by apply log_record_not_call. exact Hcalls.
      * rewrite filter_cons_True by apply log_record_is_log. rewrite Hlogs.
        simpl. unfold log_at at 2.
        by rewrite Hent, (lookup_weaken _ _ _ _ Hr Hsub).
    + destruct (IH futs s done) as
        (s' & futs' & evs & Hrun & Hsub & Hall & Htr & Hcalls & Hlogs);
        [done..|].
      exists s', futs', evs. split_and!; try done.
      rewrite Hlogs. simpl. unfold log_at at 2. by rewrite Hent.
Qed.

Lemma BaseStrategy_do_state action entities s :
  (BaseStrategy_do action entities s).1 = s.
Proof. unfold BaseStrategy_do. by destruct (bool_decide _), entities. Qed.

Lemma for_each_trace action entities s :
  ∃ evs,
    trace (for_each action entities s).1 = trace s ++ evs ∧ all_about action evs.
Proof.
  revert s. induction entities as [|entity rest IH]; intros s; simpl.
  - exists []. split; [by rewrite app_nil_r|constructor].
  - unfold mbind, M_bind, call.
    destruct (invoke entity action (world s)) as [w [x|v]].
    + exists [EvCall entity action]. split; [done|by repeat constructor].
    + set (s1 := mkState w (trace s ++ [EvCall entity action])).
      destruct (IH s1) as (evs & Htr & Habout).
      exists (EvCall entity action :: evs). split.
      * rewrite Htr. simpl. by rewrite <- app_assoc.
      * by constructor.
Qed.

Lemma SequentialStrategy_do_Ok action entities s s' r :
  SequentialStrategy_do action entities s = (s', Ok r) →
  r = PyNone ∧ trace s' = trace s ++ call_events action entities.
Proof.
  unfold SequentialStrategy_do.
  destruct (BaseStrategy_do action entities s) as [s1 [[]|x]] eqn:Hbase.
  - rewrite (bind_Ok _ _ _ _ _ Hbase).
    assert (s1 = s) as ->.
    { unfold BaseStrategy_do in Hbase.
      destruct (bool_decide _), entities; by inversion Hbase. }
    destruct (for_each action entities s) as [s2 [[]|x]] eqn:Hloop.
    + rewrite (bind_Ok _ _ _ _ _ Hloop). intros [= <- <-].
      split; [done|]. by apply for_each_Ok.
    + rewrite (bind_Raise _ _ _ _ _ Hloop). discriminate.
  - rewrite (bind_Raise _ _ _ _ _ Hbase). discriminate.
Qed.

Lemma SequentialStrategy_do_all_return action entities s :
  action ∈ valid_actions → entities ≠ [] →
  all_return action entities (world s) →
  SequentialStrategy_do action entities s
  = (mkState (world_after action entities (world s))
       (trace s ++ call_events action entities),
     Ok PyNone).
Proof.
  intros Hin Hne Hall. unfold SequentialStrategy_do.
  rewrite (bind_Ok _ _ _ _ _ (BaseStrategy_do_pass _ _ _ Hin Hne)).
  by rewrite (bind_Ok _ _ _ _ _ (for_each_all_return _ _ _ Hall)).
Qed.

(** The sequential loop stops at the first method that raises. *)
Lemma for_each_raises action pre entity post s w x :
  all_return action pre (world s) →
  invoke entity action (world_after action pre (world s)) = (w, inl x) →
  for_each action (pre ++ entity :: post) s
  = (mkState w (trace s ++ call_events action pre ++ [EvCall entity action]),
     Raise (EntityFailure x)).
Proof.
  intros Hpre Hi.
  by apply (for_each_fails _ _ _ _ _ _ _ _ (for_each_all_return _ _ _ Hpre)).
Qed.

(** A future that no later worker completes keeps what it holds. *)
Lemma run_schedule_keeps action entities sch futs s s' futs' i :
  i ∉ runs sch →
  run_schedule action entities sch futs s = (s', Ok futs') →
  futs' !! i = futs !! i.
Proof.
  revert futs s. induction sch as [|[j|j] rest IH]; intros futs s Hi; simpl.
  - by intros [= <- <-].
  - change (runs (Run j :: rest)) with (j :: runs rest) in Hi.
    apply not_elem_of_cons in Hi as [Hne Hi].
    unfold run_worker. destruct (entities !! j) as [entity|].
    + unfold mbind, M_bind.
      destruct (invoke entity action (world s)) as [w r].
      intros Hrun. rewrite (IH _ _ Hi Hrun). by rewrite lookup_insert_ne.
    + by apply IH.
  - change (runs (Yield j :: rest)) with (runs rest) in Hi.
    unfold report.
    destruct (entities !! j) as [entity|]; [destruct (futs !! j) as [r|]|];
      by apply IH.
Qed.

(** Every future holds the outcome that its entity's method had in the
    world in which the worker ran, and the world in the end is the one the
    workers left in the order in which they ran. *)
Lemma run_schedule_outcomes action entities sch futs s s' futs' :
  NoDup (runs sch) →
  run_schedule action entities sch futs s = (s', Ok futs') →
  world s' = apply_runs action entities (runs sch) (world s) ∧
  ∀ i entity pre post,
    runs sch = pre ++ i :: post → entities !! i = Some entity →
    futs' !! i
    = Some (invoke entity action (apply_runs action entities pre (world s))).2.
Proof.
  revert futs s. induction sch as [|[j|j] rest IH]; intros futs s Hnodup.
  - simpl. intros [= <- <-]. split; [done|].
    intros i entity pre post Hsplit. by destruct pre.
  - change (runs (Run j :: rest)) with (j :: runs rest) in *.
    apply NoDup_cons in Hnodup as [Hj Hnodup].
    cbn [run_schedule apply_runs]. unfold run_worker.
    destruct (entities !! j) as [ej|] eqn:Hej.
    + unfold mbind at 1, M_bind at 1.
      destruct (invoke ej action (world s)) as [w r] eqn:Hi.
      intros Hrun.
      destruct (IH _ _ Hnodup Hrun) as [Hworld Hfuts]. split; [done|].
      intros i entity [|j' pre] post Hsplit Hent; simpl in Hsplit.
      * injection Hsplit as <- _. simpl.
        rewrite (run_schedule_keeps _ _ _ _ _ _ _ _ Hj Hrun).
        rewrite lookup_insert_eq. rewrite Hej in Hent. injection Hent as <-.
        by rewrite Hi.
      * injection Hsplit as <- Hsplit. simpl. rewrite Hej, Hi.
        by apply (Hfuts i entity pre post).
    + intros Hrun. destruct (IH _ _ Hnodup Hrun) as [Hworld Hfuts].
      split; [done|].
      intros i entity [|j' pre] post Hsplit Hent; simpl in Hsplit.
      * injection Hsplit as <- _. congruence.
      * injection Hsplit as <- Hsplit. simpl. rewrite Hej.
        by apply (Hfuts i entity pre post).
  - change (runs (Yield j :: rest)) with (runs rest) in *.
    cbn [run_schedule]. unfold report.
    destruct (entities !! j) as [entity|]; [destruct (futs !! j) as [r|]|];
      intros Hrun; by apply (IH _ _ Hnodup Hrun).
Qed.

Lemma logs_seq_tied action entities futs (rest : list Entity) start :
  (∀ j entity, rest !! j = Some entity → entities !! (start + j) = Some entity) →
  (∀ j, j < length rest → is_Some (futs !! (start + j))) →
  ∃ results,
    length results = length rest ∧
    omap (log_at action entities futs) (seq start (length rest))
    = zip_with (log_record action) rest results ∧
    ∀ j r, results !! j = Some r → futs !! (start + j) = Some r.
Proof.
  revert start. induction rest as [|entity rest IH]; intros start Hsub Hdone; simpl.
  - exists []. by split_and!.
  - pose proof (Hsub 0 entity eq_refl) as H0. rewrite Nat.add_0_r in H0.
    destruct (Hdone 0 ltac:(simpl; lia)) as [r Hr]. rewrite Nat.add_0_r in Hr.
    destruct (IH (S start)) as (results & Hlen & Hlogs & Htied).
    + intros j e Hj. replace (S start + j) with (start + S j) by lia.
      by apply Hsub.
    + intros j Hj. replace (S start + j) with (start + S j) by lia.
      apply Hdone. simpl. lia.
    + exists (r :: results). split_and!.
      * simpl. by rewrite Hlen.
      * unfold log_at at 1. rewrite H0, Hr. simpl. f_equal. exact Hlogs.
      * intros [|j] r'; simpl.
        -- intros [= <-]. by rewrite Nat.add_0_r.
        -- intros Hj. replace (start + S j) with (S start + j) by lia.
           by apply Htied.
Qed.

(** The concurrent strategy under a valid schedule: one call and one log
    record per entity, the record telling the outcome of that entity's
    call. *)
Lemma ConcurrentStrategy_do_outcomes sch action entities s :
  action ∈ valid_actions → entities ≠ [] →
  valid_schedule sch (length entities) →
  ∃ s' evs results,
    ConcurrentStrategy_do sch action entities s = (s', Ok PyNone) ∧
    world s' = apply_runs action entities (runs sch) (world s) ∧
    trace s' = trace s ++ evs ∧
    filter is_call evs ≡ₚ call_events action entities ∧
    length results = length entities ∧
    filter is_log evs ≡ₚ zip_with (log_record action) entities results ∧
    ∀ i entity r pre post,
      runs sch = pre ++ i :: post → entities !! i = Some entity →
      results !! i = Some r →
      r = (invoke entity action (apply_runs action entities pre (world s))).2.
Proof.
  intros Hin Hne (Hruns & Hyields & Hord). unfold ConcurrentStrategy_do.
  rewrite (bind_Ok _ _ _ _ _ (BaseStrategy_do_pass _ _ _ Hin Hne)).
  assert (NoDup (runs sch)) as Hnodup by (rewrite Hruns; apply NoDup_seq).
  destruct (run_schedule_valid action entities sch ∅ s [])
    as (s' & futs & evs & Hrun & _ & Hall & Htr & Hcalls & Hlogs); [done| | |done|].
  { intros i _. apply lookup_empty. }
  { by intros i ?%elem_of_nil. }
  rewrite (bind_Ok _ _ _ _ _ Hrun).
  destruct (run_schedule_outcomes _ _ _ _ _ _ _ Hnodup Hrun) as [Hworld Hfuts].
  destruct (logs_seq_tied action entities futs entities 0)
    as (results & Hlen & Hseq & Htied).
  { by intros j entity. }
  { intros j Hj. apply Hall; [|done]. rewrite Hruns. apply elem_of_seq. lia. }
  exists s', evs, results. split_and!; try done.
  - rewrite Hcalls. unfold call_events. rewrite Hruns.
    by rewrite (pick_seq entities entities 0).
  - rewrite Hlogs, Hyields. by rewrite Hseq.
  - intros i entity r pre post Hsplit Hent Hr.
    apply Htied in Hr. simpl in Hr.
    rewrite (Hfuts i entity pre post Hsplit Hent) in Hr. congruence.
Qed.


(** What any [do] adds to the trace. *)
Lemma do_trace cls sch action entities s :
  ∃ evs,
    trace (do cls sch action entities s).1 = trace s ++ evs ∧
    all_about action evs ∧
    (∀ r, (do cls sch action entities s).2 = Ok r →
       valid_schedule sch (length entities) →
       filter is_call evs ≡ₚ call_events action entities).
Proof.
  destruct cls; simpl.
  - unfold SequentialStrategy_do.
    pose proof (BaseStrategy_do_state action entities s) as Hst.
    destruct (BaseStrategy_do action entities s) as [s1 [[]|x]] eqn:Hbase;
      simpl in Hst; subst s1.
    + rewrite (bind_Ok _ _ _ _ _ Hbase).
      destruct (for_each_trace action entities s) as (evs & Htr & Habout).
      exists evs.
      destruct (for_each action entities s) as [s2 [[]|x]] eqn:Hloop.
      * rewrite (bind_Ok _ _ _ _ _ Hloop). simpl. split_and!; [done..|].
        intros r _ _. apply for_each_Ok in Hloop. simpl in Htr.
        rewrite Hloop in Htr. apply app_inv_head in Htr. subst evs.
        by rewrite filter_calls.
      * rewrite (bind_Raise _ _ _ _ _ Hloop). simpl. by split_and!.
    + rewrite (bind_Raise _ _ _ _ _ Hbase). exists []. simpl.
      split_and!; [by rewrite app_nil_r|constructor|done].
  - unfold ConcurrentStrategy_do.
    pose proof (BaseStrategy_do_state action entities s) as Hst.
    destruct (BaseStrategy_do action entities s) as [s1 [[]|x]] eqn:Hbase;
      simpl in Hst; subst s1.
    + rewrite (bind_Ok _ _ _ _ _ Hbase).
      destruct (run_schedule_trace action entities sch ∅ s)
        as (s1 & futs & evs & Hrun & Htr & Habout).
      rewrite (bind_Ok _ _ _ _ _ Hrun). simpl.
      exists evs. split_and!; [done..|].
      intros r _ (Hruns & _ & Hord).
      destruct (run_schedule_valid action entities sch ∅ s [])
        as (s1' & futs' & evs' & Hrun' & _ & _ & Htr' & Hcalls & _).
      { rewrite Hruns. apply NoDup_seq. }
      { intros i _. apply lookup_empty. }
      { by intros i ?%elem_of_nil. }
      { done. }
      rewrite Hrun in Hrun'. injection Hrun' as <- <-.
      rewrite Htr in Htr'. apply app_inv_head in Htr'. subst evs'.
      rewrite Hcalls. unfold call_events. rewrite Hruns.
      by rewrite (pick_seq entities entities 0).
    + rewrite (bind_Raise _ _ _ _ _ Hbase). exists []. simpl.
      split_and!; [by rewrite app_nil_r|constructor|done].
  - exists []. simpl. split_and!; [by rewrite app_nil_r|constructor|done].
Qed.

(** C1 (amended): for a valid action and a non-empty entity sequence no
    strategy returns outcomes, [do] returns None.  The sequential strategy,
    when it returns, has invoked the action once on each entity, in input
    order, and it does return when no entity's action fails in the run.
    The concurrent strategy returns whatever the entities' actions do,
    under every valid schedule, having invoked the action exactly once per
    input entity and written exactly one log record per input entity,
    which tells the outcome that this entity's call had when it ran: an
    error record for a failure, an info record otherwise. *)
Theorem do_one_call_per_entity sch action entities s :
  action ∈ valid_actions → entities ≠ [] →
  valid_schedule sch (length entities) →
  (∀ s' r, do SequentialStrategy sch action entities s = (s', Ok r) →
     r = PyNone ∧ trace s' = trace s ++ call_events action entities) ∧
  (all_return action entities (world s) →
     do SequentialStrategy sch action entities s
     = (mkState (world_after action entities (world s))
          (trace s ++ call_events action entities),
        Ok PyNone)) ∧
  (∃ s' evs results,
     do ConcurrentStrategy sch action entities s = (s', Ok PyNone) ∧
     world s' = apply_runs action entities (runs sch) (world s) ∧
     trace s' = trace s ++ evs ∧
     filter is_call evs ≡ₚ call_events action entities ∧
     length results = length entities ∧
     filter is_log evs ≡ₚ zip_with (log_record action) entities results ∧
     ∀ i entity r pre post,
       runs sch = pre ++ i :: post → entities !! i = Some entity →
       results !! i = Some r →
       r = (invoke entity action (apply_runs action entities pre (world s))).2).
Proof.
  intros Hin Hne Hsch. split_and!.
  - intros s' r. apply SequentialStrategy_do_Ok.
  - by apply SequentialStrategy_do_all_return.
  - by apply ConcurrentStrategy_do_outcomes.
Qed.

(** C2 (amended): when an entity's action fails during the sequential
    strategy's [do], the error is not captured: it leaves [do] as the
    failure of the whole call.  The action has been invoked, in order, on
    the entities before the failing one and on the failing one, and on no
    later entity. *)
Theorem sequential_failure_propagates sch action pre entity post s s1 w x :
  action ∈ valid_actions →
  for_each action pre s = (s1, Ok ()) →
  invoke entity action (world s1) = (w, inl x) →
  do SequentialStrategy sch action (pre ++ entity :: post) s
  = (mkState w (trace s ++ call_events action pre ++ [EvCall entity action]),
     Raise (EntityFailure x)).
Proof.
  intros Hin Hpre Hi. simpl. unfold SequentialStrategy_do.
  assert (pre ++ entity :: post ≠ []) as Hne by by destruct pre.
  rewrite (bind_Ok _ _ _ _ _ (BaseStrategy_do_pass _ _ s Hin Hne)).
  by rewrite (bind_Raise _ _ _ _ _ (for_each_fails _ _ _ post _ _ _ _ Hpre Hi)).
Qed.

(** C3 (amended): [do] with an action outside the supported set fails
    before any entity is touched, for every entity sequence: with
    InvalidAction in the sequential and the concurrent strategy, with
    NotImplemented in the batch strategy.  The state is unchanged, so no
    entity's action was invoked. *)
Theorem do_invalid_action cls sch action entities s :
  action ∉ valid_actions →
  do cls sch action entities s
  = (s, Raise (if decide (cls = BatchStrategy) then NotImplemented
               else InvalidAction action)).
Proof.
  intros Hbad. destruct cls; simpl.
  - unfold SequentialStrategy_do.
    by rewrite (bind_Raise _ _ _ _ _ (BaseStrategy_do_invalid _ entities s Hbad)).
  - unfold ConcurrentStrategy_do.
    by rewrite (bind_Raise _ _ _ _ _ (BaseStrategy_do_invalid _ entities s Hbad)).
  - done.
Qed.

(** C4 (amended): [do] with a supported action and an empty entity sequence
    fails and does no work: with EmptyInput in the sequential and the
    concurrent strategy, with NotImplemented in the batch strategy. *)
Theorem do_empty_input cls sch action s :
  action ∈ valid_actions →
  do cls sch action [] s
  = (s, Raise (if decide (cls = BatchStrategy) then NotImplemented
               else EmptyInput)).
Proof.
  intros Hin. destruct cls; simpl.
  - unfold SequentialStrategy_do.
    by rewrite (bind_Raise _ _ _ _ _ (BaseStrategy_do_empty _ s Hin)).
  - unfold ConcurrentStrategy_do.
    by rewrite (bind_Raise _ _ _ _ _ (BaseStrategy_do_empty _ s Hin)).
  - done.
Qed.

(** C8: the batch strategy's [do] fails with NotImplemented on every
    invocation, in particular for every supported action and non-empty
    entity sequence, and leaves the state as it was: no entity's action is
    invoked. *)
Theorem batch_not_implemented sch action entities s :
  do BatchStrategy sch action entities s = (s, Raise NotImplemented).
Proof. reflexivity. Qed.

End WithEntities.

End StrategyProofs.

(** * Properties of the batcher *)
Module BatcherProofs.
Import Strategy Batcher StrategyProofs.

(** ** The table of default strategies *)

Lemma recognized_cases key :
  (key = Some "sequential" ∧ recognized key = Some SequentialStrategy) ∨
  (key = Some "concurrent" ∧ recognized key = Some ConcurrentStrategy) ∨
  (key = Some "batch" ∧ recognized key = Some BatchStrategy) ∨
  (key ≠ Some "sequential" ∧ key ≠ Some "concurrent" ∧ key ≠ Some "batch" ∧
   recognized key = None).
Proof.
  unfold recognized. repeat case_decide; subst; try discriminate; tauto.
Qed.

Lemma table_inv_initial : table_inv initial_globals.
Proof.
  split; intros key; simpl.
  - intros cls Hrec.
    destruct (recognized_cases key) as [[-> Hk]|[[-> Hk]|[[-> Hk]|(_ & _ & _ & Hk)]]];
      rewrite Hk in Hrec; by inversion Hrec.
  - intros v Hrec.
    destruct (recognized_cases key) as [[_ Hk]|[[_ Hk]|[[_ Hk]|(H1 & H2 & H3 & _)]]];
      try (rewrite Hk in Hrec; discriminate).
    rewrite !lookup_insert_ne by done. by rewrite lookup_empty.
Qed.

Lemma table_inv_new cls g : table_inv g → table_inv (new cls g).1.
Proof.
  intros [Hlit Hdef]. split; simpl; [done|].
  intros key v Hrec Hv. destruct (Hdef key v Hrec Hv) as (addr & -> & Hlt).
  exists addr. split; [done|lia].
Qed.

Lemma table_inv_getitem key g :
  table_inv g → table_inv (defaultdict_getitem key g).1.
Proof.
  intros [Hlit Hdef]. unfold defaultdict_getitem.
  destruct (API_STRATEGY g !! key) as [v|] eqn:Hkey; [done|]. simpl.
  assert (recognized key = None) as Hunrec.
  { destruct (recognized key) as [cls|] eqn:Hrec; [|done].
    rewrite (Hlit key cls Hrec) in Hkey. discriminate. }
  split; simpl.
  - intros key' cls Hrec. rewrite lookup_insert_ne by congruence.
    by apply Hlit.
  - intros key' v Hrec. destruct (decide (key = key')) as [<-|Hne].
    + rewrite lookup_insert_eq. intros [= <-]. eauto.
    + rewrite lookup_insert_ne by done. intros Hv.
      destruct (Hdef key' v Hrec Hv) as (addr & -> & Hlt).
      exists addr. split; [done|lia].
Qed.

Lemma reachable_table_inv g : reachable g → table_inv g.
Proof.
  induction 1 as [|cls g _ IH|key g _ IH].
  - apply table_inv_initial.
  - by apply table_inv_new.
  - by apply table_inv_getitem.
Qed.

Section WithEntities.
Context `{EntityAPI}.

Implicit Types (self : ApiBatcher) (s : state) (g : globals).

(** C7: at construction an injected strategy is the selected one whatever
    the configuration value is, and the table is left alone; with no
    injected strategy and an absent or unrecognized configuration value
    the selected strategy is an instance of the concurrent strategy. *)
Theorem init_strategy_precedence API_MODE g :
  reachable g →
  (∀ injected, init (Some injected) API_MODE g = (g, mkApiBatcher [] injected)) ∧
  (recognized API_MODE = None →
     ∃ addr,
       strategy (init None API_MODE g).2 = InstanceOf ConcurrentStrategy addr).
Proof.
  intros [Hlit Hdef]%reachable_table_inv. split; [done|].
  intros Hunrec. unfold init, defaultdict_getitem.
  destruct (API_STRATEGY g !! API_MODE) as [v|] eqn:Hkey; simpl.
  - destruct (Hdef _ _ Hunrec Hkey) as (addr & -> & _). by exists addr.
  - by eexists.
Qed.

(** C10 (amended): with no injected strategy the lookup is asymmetric.  A
    recognized configuration value yields the strategy class object itself,
    not an instance.  An absent or unrecognized value yields an instance of
    ConcurrentStrategy built by the default factory: on the first lookup of
    that value a freshly built one, which the table then keeps under the
    value; on a later lookup the instance the table kept, built before. *)
Theorem default_strategy_lookup API_MODE g :
  reachable g →
  match recognized API_MODE with
  | Some cls => init None API_MODE g = (g, mkApiBatcher [] (ClassObj cls))
  | None =>
      match API_STRATEGY g !! API_MODE with
      | None =>
          let built := InstanceOf ConcurrentStrategy (next_addr g) in
          fresh g built ∧
          init None API_MODE g
          = (mkGlobals (<[API_MODE := built]> (API_STRATEGY g)) (S (next_addr g)),
             mkApiBatcher [] built)
      | Some kept =>
          init None API_MODE g = (g, mkApiBatcher [] kept) ∧
          ¬ fresh g kept ∧
          ∃ addr, kept = InstanceOf ConcurrentStrategy addr
      end
  end.
Proof.
  intros [Hlit Hdef]%reachable_table_inv.
  destruct (recognized API_MODE) as [cls|] eqn:Hrec.
  - unfold init, defaultdict_getitem. by rewrite (Hlit _ _ Hrec).
  - destruct (API_STRATEGY g !! API_MODE) as [kept|] eqn:Hkey.
    + destruct (Hdef _ _ Hrec Hkey) as (addr & -> & Hlt). split_and!.
      * unfold init, defaultdict_getitem. by rewrite Hkey.
      * intros (cls & a & [= _ <-] & Hle). lia.
      * by exists addr.
    + split.
      * by exists ConcurrentStrategy, (next_addr g).
      * unfold init, defaultdict_getitem. by rewrite Hkey.
Qed.

(** ** push *)

(** C6: [push] on an empty queue fails with EmptyQueue before anything
    else happens: the state, and with it the trace of strategy calls and
    of entity actions, is unchanged. *)
Theorem push_empty_queue sch_post sch_sync self s :
  entities self = [] →
  push sch_post sch_sync self s = (self, s, Raise EmptyQueue).
Proof. intros Hempty. unfold push. by rewrite Hempty. Qed.

(** C9: [push] does not clear the queue: whether it returns or raises, the
    batcher holds the same entities in the same order afterwards (for an
    empty queue as well). *)
Theorem push_keeps_queue sch_post sch_sync self s :
  entities (push sch_post sch_sync self s).1.1 = entities self.
Proof.
  unfold push. destruct (entities self) as [|entity rest] eqn:Hqueue.
  - done.
  - match goal with |- context [let '(_, _) := ?body in _] => by destruct body end.
Qed.

Lemma strategy_do_trace sch sv action (queue : list Entity) s :
  ∃ evs,
    trace (strategy_do sch sv action queue s).1 = trace s ++ evs ∧
    all_about action evs ∧
    (∀ r, (strategy_do sch sv action queue s).2 = Ok r →
       (∃ cls evs', evs = EvDo cls action queue :: evs') ∧
       (valid_schedule sch (length queue) →
        filter is_call evs ≡ₚ call_events action queue)) ∧
    (∀ cls addr, sv = InstanceOf cls addr →
       ∃ evs', evs = EvDo cls action queue :: evs').
Proof.
  destruct sv as [cls|cls addr]; simpl.
  - exists []. split_and!; [by rewrite app_nil_r|constructor|done|done].
  - set (s1 := mkState (world s) (trace s ++ [EvDo cls action queue])).
    destruct (do_trace cls sch action queue s1) as (evs & Htr & Habout & Hcalls).
    exists (EvDo cls action queue :: evs).
    change ((emit (EvDo cls action queue) ;; do cls sch action queue) s)
      with (do cls sch action queue s1).
    split_and!.
    + rewrite Htr. simpl. by rewrite <- app_assoc.
    + by constructor.
    + intros r Hr. split; [by eexists _, _|].
      intros Hsch. rewrite filter_cons_False by (simpl; tauto). by eapply Hcalls.
    + intros ? ? [= <- <-]. by eexists.
Qed.

(** C5 (amended): for a non-empty queue [push] first invokes the strategy's
    [do] with POST over the full queue and, only if that call returns,
    afterwards invokes the same strategy's [do] with SYNC over the full
    queue, in the state the POST call left, and ends as that call ends;
    when the POST call raises, [push] raises the same error and the SYNC
    call is never made.  The two passes are never interleaved: what [push]
    adds to the trace is a block of POST events followed by a block of
    SYNC events.  When [push] returns, both passes were complete: each
    entity's action was invoked exactly once in either block. *)
Theorem push_post_then_sync sch_post sch_sync self s :
  entities self ≠ [] →
  ∃ post_evs sync_evs,
    trace (push sch_post sch_sync self s).1.2 = trace s ++ post_evs ++ sync_evs ∧
    all_about API_POST post_evs ∧
    all_about API_SYNC sync_evs ∧
    (∀ cls addr, strategy self = InstanceOf cls addr →
       ∃ evs, post_evs = EvDo cls API_POST (entities self) :: evs) ∧
    (∀ s1 x,
       strategy_do sch_post (strategy self) API_POST (entities self) s
       = (s1, Raise x) →
       sync_evs = [] ∧ push sch_post sch_sync self s = (self, s1, Raise x)) ∧
    (∀ s1 r1,
       strategy_do sch_post (strategy self) API_POST (entities self) s
       = (s1, Ok r1) →
       trace s1 = trace s ++ post_evs ∧
       (∃ cls addr evs,
          strategy self = InstanceOf cls addr ∧
          sync_evs = EvDo cls API_SYNC (entities self) :: evs) ∧
       ∃ s2 r2,
         strategy_do sch_sync (strategy self) API_SYNC (entities self) s1
         = (s2, r2) ∧
         trace s2 = trace s1 ++ sync_evs ∧
         push sch_post sch_sync self s
         = (self, s2, match r2 with Ok _ => Ok PyNone | Raise x => Raise x end)) ∧
    (∀ r, (push sch_post sch_sync self s).2 = Ok r →
       valid_schedule sch_post (length (entities self)) →
       valid_schedule sch_sync (length (entities self)) →
       filter is_call post_evs ≡ₚ call_events API_POST (entities self) ∧
       filter is_call sync_evs ≡ₚ call_events API_SYNC (entities self)).
Proof.
  intros Hqueue. unfold push.
  destruct (entities self) as [|entity rest] eqn:Hq; [done|]. clear Hqueue.
  rewrite <- Hq.
  destruct (strategy_do_trace sch_post (strategy self) API_POST (entities self) s)
    as (post_evs & Htr1 & Habout1 & Hok1 & Hhead1).
  destruct (strategy_do sch_post (strategy self) API_POST (entities self) s)
    as [s1 [r1|x1]] eqn:Hpost; simpl in Htr1, Hok1.
  - destruct (strategy_do_trace sch_sync (strategy self) API_SYNC (entities self) s1)
      as (sync_evs & Htr2 & Habout2 & Hok2 & Hhead2).
    destruct (Hok1 r1 eq_refl) as [(cls & evs1 & Hev1) Hcalls1].
    assert (∃ addr, strategy self = InstanceOf cls addr) as [addr Hinst].
    { destruct (strategy self) as [c|c a]; [discriminate|].
      destruct (Hhead1 c a eq_refl) as (evs' & Heq). rewrite Hev1 in Heq.
      inversion Heq. by eexists. }
    rewrite (bind_Ok _ _ _ _ _ Hpost).
    destruct (strategy_do sch_sync (strategy self) API_SYNC (entities self) s1)
      as [s2 [r2|x2]] eqn:Hsync; simpl in Htr2, Hok2.
    + rewrite (bind_Ok _ _ _ _ _ Hsync). simpl.
      exists post_evs, sync_evs. split_and!; try done.
      * by rewrite Htr2, Htr1, <- app_assoc.
      * intros s1' r1' [= <- <-]. split_and!; [done| |].
        -- destruct (Hhead2 cls addr Hinst) as [evs Hevs]. by exists cls, addr, evs.
        -- by exists s2, (Ok r2).
      * intros r _ Hsch1 Hsch2. split; [by apply Hcalls1|].
        by apply (Hok2 r2 eq_refl).
    + rewrite (bind_Raise _ _ _ _ _ Hsync). simpl.
      exists post_evs, sync_evs. split_and!; try done.
      * by rewrite Htr2, Htr1, <- app_assoc.
      * intros s1' r1' [= <- <-]. split_and!; [done| |].
        -- destruct (Hhead2 cls addr Hinst) as [evs Hevs]. by exists cls, addr, evs.
        -- by exists s2, (Raise x2).
  - rewrite (bind_Raise _ _ _ _ _ Hpost). simpl.
    exists post_evs, []. split_and!; try done.
    + by rewrite app_nil_r.
    + constructor.
    + by intros s1' x [= <- <-].
Qed.

End WithEntities.

End BatcherProofs.

(** * The theorems at concrete inputs *)
Module Examples.
Import Strategy Batcher StrategyProofs BatcherProofs Demo.

Lemma post_valid : API_POST ∈ valid_actions.
Proof. apply valid_actions_spec. by left. Defined.

Lemma delete_invalid : "delete" ∉ valid_actions.
Proof. intros [?|?]%valid_actions_spec; discriminate. Defined.

Lemma sch3_valid : valid_schedule sch3 3.
Proof.
  split_and!; [|by vm_compute..].
  (* the futures run in the order 2, 0, 1 *)
  change ([2; 0; 1] ≡ₚ [0; 1; 2]).
  etrans; [apply perm_swap|]. apply perm_skip, perm_swap.
Defined.

Lemma sch2_valid : valid_schedule sch2 2.
Proof. split_and!; [apply perm_swap|apply perm_swap|reflexivity]. Defined.

Lemma do_one_call_per_entity_witness :
  (* two entities whose POST returns *)
  (API_POST ∈ valid_actions ∧ [2; 4] ≠ [] ∧ valid_schedule sch2 2 ∧
   all_return API_POST [2; 4] (world s0) ∧
   (∀ s' r, do SequentialStrategy sch2 API_POST [2; 4] s0 = (s', Ok r) →
      r = PyNone ∧ trace s' = trace s0 ++ call_events API_POST [2; 4]) ∧
   do SequentialStrategy sch2 API_POST [2; 4] s0
   = (mkState (world_after API_POST [2; 4] (world s0))
        (trace s0 ++ call_events API_POST [2; 4]),
      Ok PyNone) ∧
   ∃ s' evs results,
     do ConcurrentStrategy sch2 API_POST [2; 4] s0 = (s', Ok PyNone) ∧
     world s' = apply_runs API_POST [2; 4] (runs sch2) (world s0) ∧
     trace s' = trace s0 ++ evs ∧
     filter is_call evs ≡ₚ call_events API_POST [2; 4] ∧
     length results = 2 ∧
     filter is_log evs ≡ₚ zip_with (log_record API_POST) [2; 4] results ∧
     ∀ i entity r pre post,
       runs sch2 = pre ++ i :: post → [2; 4] !! i = Some entity →
       results !! i = Some r →
       r = (invoke entity API_POST
              (apply_runs API_POST [2; 4] pre (world s0))).2) ∧
  (* three entities of which the second is rejected *)
  (valid_schedule sch3 3 ∧
   ∃ s' evs results,
     do ConcurrentStrategy sch3 API_POST [2; 1; 4] s0 = (s', Ok PyNone) ∧
     world s' = apply_runs API_POST [2; 1; 4] (runs sch3) (world s0) ∧
     trace s' = trace s0 ++ evs ∧
     filter is_call evs ≡ₚ call_events API_POST [2; 1; 4] ∧
     length results = 3 ∧
     filter is_log evs ≡ₚ zip_with (log_record API_POST) [2; 1; 4] results ∧
     ∀ i entity r pre post,
       runs sch3 = pre ++ i :: post → [2; 1; 4] !! i = Some entity →
       results !! i = Some r →
       r = (invoke entity API_POST
              (apply_runs API_POST [2; 1; 4] pre (world s0))).2).
Proof.
  assert (all_return API_POST [2; 4] (world s0)) as Hall.
  { simpl. split_and!; [by eexists..|done]. }
  destruct (do_one_call_per_entity (H:=demo_api) sch2 API_POST [2; 4] s0
              post_valid ltac:(discriminate) sch2_valid) as (Hseq & Hret & Hconc).
  destruct (do_one_call_per_entity (H:=demo_api) sch3 API_POST [2; 1; 4] s0
              post_valid ltac:(discriminate) sch3_valid) as (_ & _ & Hconc3).
  split.
  - split_and!; [exact post_valid|discriminate|exact sch2_valid|exact Hall
                |exact Hseq|exact (Hret Hall)|exact Hconc].
  - split; [exact sch3_valid|exact Hconc3].
Defined.

(** C1, as stated, fails: on two entities whose POST succeeds the
    sequential strategy returns None, not a sequence of two outcomes. *)
Lemma sequential_returns_no_outcomes :
  ¬ ∃ outs : list Outcome,
      (do SequentialStrategy sch2 API_POST [2; 4] s0).2 = Ok (PyOutcomes outs) ∧
      length outs = 2.
Proof. intros (outs & Hret & _). vm_compute in Hret. discriminate. Qed.

Lemma sequential_failure_propagates_witness :
  API_POST ∈ valid_actions ∧
  for_each API_POST [2] s0
  = (mkState [(2, "post")] [EvCall 2 "post"], Ok ()) ∧
  invoke 1 API_POST [(2, "post")]
  = ([(2, "post"); (1, "post")], inl "rejected") ∧
  do SequentialStrategy sch3 API_POST [2; 1; 4] s0
  = (mkState [(2, "post"); (1, "post")] [EvCall 2 "post"; EvCall 1 "post"],
     Raise (EntityFailure "rejected")).
Proof.
  split_and!; [exact post_valid|reflexivity|reflexivity|].
  exact (sequential_failure_propagates sch3 API_POST [2] 1 [4] s0
           (mkState [(2, "post")] [EvCall 2 "post"])
           [(2, "post"); (1, "post")] "rejected"
           post_valid eq_refl eq_refl).
Defined.

(** C2, as stated, fails: entity 1 is rejected, its error leaves [do]
    instead of being kept as an outcome, and the action is never invoked on
    entity 2 behind it. *)
Lemma sequential_stops_at_failure :
  (do SequentialStrategy sch2 API_POST [1; 2] s0).2
  = Raise (EntityFailure "rejected") ∧
  EvCall 2 API_POST ∉ trace (do SequentialStrategy sch2 API_POST [1; 2] s0).1.
Proof.
  split; [reflexivity|]. vm_compute.
  intros [[=]|Hin%elem_of_nil]%elem_of_cons. done.
Qed.

Lemma do_invalid_action_witness :
  ("delete" ∉ valid_actions) ∧
  do ConcurrentStrategy sch2 "delete" [2; 4] s0
  = (s0, Raise (InvalidAction "delete")).
Proof.
  split; [exact delete_invalid|].
  exact (do_invalid_action ConcurrentStrategy sch2 "delete" [2; 4] s0
           delete_invalid).
Defined.

(** C3, as stated, fails: the batch strategy answers an unsupported action
    with NotImplemented, not with InvalidAction. *)
Lemma batch_invalid_action :
  ("delete" ∉ valid_actions) ∧
  (do BatchStrategy sch2 "delete" [2; 4] s0).2 ≠ Raise (InvalidAction "delete").
Proof. split; [exact delete_invalid|discriminate]. Qed.

Lemma do_empty_input_witness :
  API_POST ∈ valid_actions ∧
  do SequentialStrategy sch2 API_POST [] s0 = (s0, Raise EmptyInput).
Proof.
  split; [exact post_valid|].
  exact (do_empty_input SequentialStrategy sch2 API_POST s0 post_valid).
Defined.

(** C4, as stated, fails: the batch strategy answers an empty entity
    sequence with NotImplemented, not with EmptyInput. *)
Lemma batch_empty_input :
  API_POST ∈ valid_actions ∧
  (do BatchStrategy sch2 API_POST [] s0).2 ≠ Raise EmptyInput.
Proof. split; [exact post_valid|discriminate]. Qed.

Lemma push_post_then_sync_witness :
  let self := mkApiBatcher [2; 1; 4] (InstanceOf ConcurrentStrategy 0) in
  entities self ≠ [] ∧
  ∃ post_evs sync_evs,
    trace (push sch3 sch3 self s0).1.2 = trace s0 ++ post_evs ++ sync_evs ∧
    all_about API_POST post_evs ∧
    all_about API_SYNC sync_evs ∧
    (∀ cls addr, strategy self = InstanceOf cls addr →
       ∃ evs, post_evs = EvDo cls API_POST (entities self) :: evs) ∧
    (∀ s1 x,
       strategy_do sch3 (strategy self) API_POST (entities self) s0
       = (s1, Raise x) →
       sync_evs = [] ∧ push sch3 sch3 self s0 = (self, s1, Raise x)) ∧
    (∀ s1 r1,
       strategy_do sch3 (strategy self) API_POST (entities self) s0
       = (s1, Ok r1) →
       trace s1 = trace s0 ++ post_evs ∧
       (∃ cls addr evs,
          strategy self = InstanceOf cls addr ∧
          sync_evs = EvDo cls API_SYNC (entities self) :: evs) ∧
       ∃ s2 r2,
         strategy_do sch3 (strategy self) API_SYNC (entities self) s1
         = (s2, r2) ∧
         trace s2 = trace s1 ++ sync_evs ∧
         push sch3 sch3 self s0
         = (self, s2, match r2 with Ok _ => Ok PyNone | Raise x => Raise x end)) ∧
    (∀ r, (push sch3 sch3 self s0).2 = Ok r →
       valid_schedule sch3 (length (entities self)) →
       valid_schedule sch3 (length (entities self)) →
       filter is_call post_evs ≡ₚ call_events API_POST (entities self) ∧
       filter is_call sync_evs ≡ₚ call_events API_SYNC (entities self)).
Proof.
  intros self. split; [discriminate|].
  exact (push_post_then_sync sch3 sch3 self s0 ltac:(discriminate)).
Defined.

(** C5, as stated, fails: with the batch strategy the POST call raises and
    [push] never invokes [do] with SYNC, so there are no two passes. *)
Lemma push_batch_never_syncs :
  let self := mkApiBatcher [2; 4] (InstanceOf BatchStrategy 0) in
  entities self ≠ [] ∧
  (push sch2 sch2 self s0).2 = Raise NotImplemented ∧
  ¬ ∃ cls, EvDo cls API_SYNC [2; 4] ∈ trace (push sch2 sch2 self s0).1.2.
Proof.
  intros self. split_and!; [discriminate|reflexivity|].
  intros [cls Hin]. vm_compute in Hin.
  apply list_elem_of_singleton in Hin. discriminate.
Qed.

Lemma push_empty_queue_witness :
  let self := mkApiBatcher [] (InstanceOf SequentialStrategy 0) in
  entities self = [] ∧
  push sch2 sch2 self s0 = (self, s0, Raise EmptyQueue).
Proof.
  intros self. split; [reflexivity|].
  exact (push_empty_queue sch2 sch2 self s0 eq_refl).
Defined.

Lemma init_strategy_precedence_witness :
  reachable initial_globals ∧
  recognized None = None ∧
  (∀ injected,
     init (Some injected) None initial_globals
     = (initial_globals, mkApiBatcher [] injected)) ∧
  ∃ addr,
    strategy (init None None initial_globals).2
    = InstanceOf ConcurrentStrategy addr.
Proof.
  destruct (init_strategy_precedence None initial_globals reach_initial)
    as [Hinjected Hdefault].
  split_and!; [exact reach_initial|reflexivity|exact Hinjected
              |exact (Hdefault eq_refl)].
Defined.

Lemma default_strategy_lookup_witness :
  reachable initial_globals ∧
  fresh initial_globals (InstanceOf ConcurrentStrategy 0) ∧
  init None (Some "turbo") initial_globals
  = (mkGlobals
       (<[Some "turbo" := InstanceOf ConcurrentStrategy 0]>
          (API_STRATEGY initial_globals)) 1,
     mkApiBatcher [] (InstanceOf ConcurrentStrategy 0)).
Proof.
  split; [exact reach_initial|].
  exact (default_strategy_lookup (Some "turbo") initial_globals reach_initial).
Defined.

(** C10, as stated, fails: the second batcher built with no injected
    strategy and no configuration value gets the instance that the table
    kept from the first construction, not a freshly built one. *)
Lemma second_default_lookup_not_fresh :
  let g1 := (init None None initial_globals).1 in
  reachable g1 ∧
  recognized None = None ∧
  strategy (init None None g1).2 = strategy (init None None initial_globals).2 ∧
  ¬ fresh g1 (strategy (init None None g1).2).
Proof.
  intros g1. split_and!.
  - exact (reach_getitem None initial_globals reach_initial).
  - reflexivity.
  - reflexivity.
  - intros (cls & addr & Heq & Hle). vm_compute in Heq, Hle.
    inversion Heq; subst. lia.
Qed.

(** The scenario of three entities of which the second is rejected: the
    concurrent strategy still posts the other two and logs one failure and
    two successes. *)
Example concurrent_isolates_failure :
  do ConcurrentStrategy sch3 API_POST [2; 1; 4] s0
  = (mkState [(4, "post"); (2, "post"); (1, "post")]
       [EvCall 4 "post"; EvCall 2 "post"; EvLogInfo 2 "post"; EvCall 1 "post";
        EvLogError 1 "post" "rejected"; EvLogInfo 4 "post"],
     Ok PyNone).
Proof. reflexivity. Qed.

(** A batcher configured with API_MODE=sequential holds the class object,
    and its [push] raises before any strategy body is entered. *)
Example recognized_mode_cannot_push :
  let b := (init None (Some "sequential") initial_globals).2 in
  let b2 := (enqueue 2 b s0).1.1 in
  strategy b2 = ClassObj SequentialStrategy ∧
  push sch2 sch2 b2 s0
  = (b2, s0, Raise (TypeError "unbound method do() must be called with an instance")).
Proof. split; reflexivity. Qed.

End Examples.

(** * Further properties of the strategies *)
Module StrategyFacts.
Import Strategy StrategyProofs.

Section WithEntities.
Context `{EntityAPI}.

Implicit Types (action : string) (entities : list Entity) (s : state).


(** The run of the sequential loop from [w]: either every method returns,
    or there is a first one that raises. *)
Lemma all_return_or_first_failure action entities (w : World) :
  all_return action entities w ∨
  ∃ pre entity post w' err,
    entities = pre ++ entity :: post ∧
    all_return action pre w ∧
    invoke entity action (world_after action pre w) = (w', inl err).
Proof.
  revert w. induction entities as [|entity rest IH]; intros w; [by left|].
  destruct (invoke entity action w) as [w1 [err|v]] eqn:Hi.
  - right. by exists [], entity, rest, w1, err.
  - destruct (IH w1) as [Hall|(pre & e & post & w' & err & -> & Hpre & He)].
    + left. simpl. rewrite Hi. split; [by eexists|done].
    + right. exists (entity :: pre), e, post, w', err. simpl. rewrite Hi.
      split_and!; [done|by eexists|done|done].
Qed.

(** X1: for a supported action and a non-empty entity sequence the
    sequential strategy's [do] ends in one of two ways.  Either every
    entity's action returns in the run, and [do] returns None after calling
    every entity in order; or there is a first entity whose action raises,
    and [do] raises that entity's error (never an error of its own) after
    calling the entities before it and that entity, in order, and no entity
    behind it. *)
Theorem sequential_do_calls_prefix action entities s :
  action ∈ valid_actions → entities ≠ [] →
  (all_return action entities (world s) ∧
   SequentialStrategy_do action entities s
   = (mkState (world_after action entities (world s))
        (trace s ++ call_events action entities),
      Ok PyNone))
  ∨
  (∃ pre entity post w' err,
     entities = pre ++ entity :: post ∧
     all_return action pre (world s) ∧
     invoke entity action (world_after action pre (world s)) = (w', inl err) ∧
     SequentialStrategy_do action entities s
     = (mkState w' (trace s ++ call_events action pre ++ [EvCall entity action]),
        Raise (EntityFailure err))).
Proof.
  intros Hin Hne.
  destruct (all_return_or_first_failure action entities (world s))
    as [Hall|(pre & entity & post & w' & err & Hsplit & Hpre & Hi)].
  - left. split; [done|]. by apply SequentialStrategy_do_all_return.
  - right. exists pre, entity, post, w', err. split_and!; [done..|].
    unfold SequentialStrategy_do.
    rewrite (bind_Ok _ _ _ _ _ (BaseStrategy_do_pass _ _ _ Hin Hne)).
    rewrite Hsplit.
    by rewrite (bind_Raise _ _ _ _ _ (for_each_raises _ _ _ post _ _ _ Hpre Hi)).
Qed.

(** When the outcome of an entity's method does not depend on the world,
    the futures hold exactly those outcomes. *)
Lemma run_schedule_results action entities (f : Entity → EntityError + Value)
    sch futs s s' futs' :
  (∀ entity, entity ∈ entities → ∀ w, (invoke entity action w).2 = f entity) →
  (∀ i r, futs !! i = Some r →
     ∃ entity, entities !! i = Some entity ∧ r = f entity) →
  run_schedule action entities sch futs s = (s', Ok futs') →
  ∀ i r, futs' !! i = Some r →
    ∃ entity, entities !! i = Some entity ∧ r = f entity.
Proof.
  intros Hf. revert futs s.
  induction sch as [|[j|j] rest IH]; intros futs s Hfuts; simpl.
  - by intros [= <- <-].
  - unfold run_worker. destruct (entities !! j) as [entity|] eqn:Hent.
    + unfold mbind, M_bind.
      destruct (invoke entity action (world s)) as [w r0] eqn:Hi.
      apply IH. intros i r. destruct (decide (j = i)) as [->|Hne].
      * rewrite lookup_insert_eq. intros [= <-]. exists entity. split; [done|].
        rewrite <- (Hf entity (list_elem_of_lookup_2 _ _ _ Hent) (world s)).
        by rewrite Hi.
      * rewrite lookup_insert_ne by done. apply Hfuts.
    + by apply IH.
  - unfold report.
    destruct (entities !! j) as [entity|]; [destruct (futs !! j) as [r0|]|];
      by apply IH.
Qed.

Lemma logs_seq_outcomes action entities futs (f : Entity → EntityError + Value)
    (rest : list Entity) start :
  (∀ j entity, rest !! j = Some entity →
     entities !! (start + j) = Some entity ∧
     futs !! (start + j) = Some (f entity)) →
  omap (log_at action entities futs) (seq start (length rest))
  = (λ entity, log_record action entity (f entity)) <$> rest.
Proof.
  revert start. induction rest as [|entity rest IH]; intros start Hsub; simpl.
  - done.
  - destruct (Hsub 0 entity eq_refl) as [H0 Hr].
    rewrite Nat.add_0_r in H0, Hr.
    unfold log_at at 1. rewrite H0, Hr. simpl. f_equal. apply IH.
    intros j e Hj. replace (S start + j) with (start + S j) by lia.
    by apply Hsub.
Qed.

(** X2: when each entity's action has an outcome that does not depend on
    the world, the concurrent strategy's [do] writes, under every valid
    schedule, exactly one log record per entity that tells that outcome:
    an error record naming the entity and its error when the action
    raised, an info record carrying the value the action returned (not the
    entity) when it returned. *)
Theorem concurrent_log_levels sch action entities
    (f : Entity → EntityError + Value) s :
  action ∈ valid_actions → entities ≠ [] →
  valid_schedule sch (length entities) →
  (∀ entity, entity ∈ entities → ∀ w, (invoke entity action w).2 = f entity) →
  ∃ s' evs,
    ConcurrentStrategy_do sch action entities s = (s', Ok PyNone) ∧
    trace s' = trace s ++ evs ∧
    filter is_log evs
    ≡ₚ (λ entity, log_record action entity (f entity)) <$> entities.
Proof.
  intros Hin Hne (Hruns & Hyields & Hord) Hf. unfold ConcurrentStrategy_do.
  rewrite (bind_Ok _ _ _ _ _ (BaseStrategy_do_pass _ _ _ Hin Hne)).
  destruct (run_schedule_valid action entities sch ∅ s [])
    as (s' & futs & evs & Hrun & _ & Hall & Htr & _ & Hlogs).
  { rewrite Hruns. apply NoDup_seq. }
  { intros i _. apply lookup_empty. }
  { by intros i ?%elem_of_nil. }
  { done. }
  rewrite (bind_Ok _ _ _ _ _ Hrun).
  exists s', evs. split_and!; [done..|].
  rewrite Hlogs, Hyields.
  rewrite (logs_seq_outcomes action entities futs f entities 0); [done|].
  intros j entity Hj. split; [done|]. simpl.
  destruct (Hall j) as [r Hr].
  { rewrite Hruns. apply elem_of_seq. apply lookup_lt_Some in Hj. lia. }
  { by apply lookup_lt_Some in Hj. }
  destruct (run_schedule_results action entities f sch ∅ s s' futs Hf
              ltac:(by intros ? ? ?%lookup_empty_Some) Hrun j r Hr)
    as (e & He & ->).
  rewrite Hr. simpl in Hj. congruence.
Qed.

End WithEntities.

End StrategyFacts.

(** * Further properties of the batcher *)
Module BatcherFacts.
Import Strategy Batcher Client StrategyProofs StrategyFacts BatcherProofs.

Section WithEntities.
Context `{EntityAPI}.

Implicit Types (self : ApiBatcher) (s : state) (queue : list Entity).

Lemma API_POST_valid : API_POST ∈ valid_actions.
Proof. apply valid_actions_spec. by left. Qed.

Lemma API_SYNC_valid : API_SYNC ∈ valid_actions.
Proof. apply valid_actions_spec. by right. Qed.

Lemma push_nonempty sch_post sch_sync self s :
  entities self ≠ [] →
  push sch_post sch_sync self s
  = let '(s', r) :=
      (strategy_do sch_post (strategy self) API_POST (entities self) ;;
       strategy_do sch_sync (strategy self) API_SYNC (entities self) ;;
       mret PyNone) s in
    (self, s', r).
Proof. intros Hne. unfold push. by destruct (entities self). Qed.

Lemma strategy_do_instance sch cls addr action queue s :
  strategy_do sch (InstanceOf cls addr) action queue s
  = do cls sch action queue
      (mkState (world s) (trace s ++ [EvDo cls action queue])).
Proof. reflexivity. Qed.

(** A pass of the sequential strategy in which every method returns. *)
Lemma sequential_pass_returns sch addr action queue s :
  action ∈ valid_actions → queue ≠ [] →
  all_return action queue (world s) →
  strategy_do sch (InstanceOf SequentialStrategy addr) action queue s
  = (mkState (world_after action queue (world s))
       (trace s ++ EvDo SequentialStrategy action queue
          :: call_events action queue),
     Ok PyNone).
Proof.
  intros Hin Hne Hall. rewrite strategy_do_instance. simpl.
  rewrite SequentialStrategy_do_all_return by done.
  simpl. by rewrite <- app_assoc.
Qed.

(** A pass of the sequential strategy that meets a method that raises. *)
Lemma sequential_pass_raises sch addr action pre entity post s w x :
  action ∈ valid_actions →
  all_return action pre (world s) →
  invoke entity action (world_after action pre (world s)) = (w, inl x) →
  strategy_do sch (InstanceOf SequentialStrategy addr) action
    (pre ++ entity :: post) s
  = (mkState w
       (trace s ++ EvDo SequentialStrategy action (pre ++ entity :: post)
          :: call_events action pre ++ [EvCall entity action]),
     Raise (EntityFailure x)).
Proof.
  intros Hin Hpre Hi. rewrite strategy_do_instance. simpl.
  unfold SequentialStrategy_do.
  assert (pre ++ entity :: post ≠ []) as Hne by by destruct pre.
  rewrite (bind_Ok _ _ _ _ _ (BaseStrategy_do_pass _ _ _ Hin Hne)).
  rewrite (bind_Raise _ _ _ _ _
             (for_each_raises action pre entity post
                (mkState (world s)
                   (trace s ++ [EvDo SequentialStrategy action
                                  (pre ++ entity :: post)]))
                w x Hpre Hi)).
  simpl. by rewrite <- app_assoc.
Qed.

Lemma push_sequential_passes sch_post sch_sync self addr s :
  strategy self = InstanceOf SequentialStrategy addr →
  entities self ≠ [] →
  all_return API_POST (entities self) (world s) →
  all_return API_SYNC (entities self)
    (world_after API_POST (entities self) (world s)) →
  push sch_post sch_sync self s
  = (self,
     mkState
       (world_after API_SYNC (entities self)
          (world_after API_POST (entities self) (world s)))
       (trace s
        ++ EvDo SequentialStrategy API_POST (entities self)
           :: call_events API_POST (entities self)
        ++ EvDo SequentialStrategy API_SYNC (entities self)
           :: call_events API_SYNC (entities self)),
     Ok PyNone).
Proof.
  intros Hstrat Hne Hpost Hsync. rewrite push_nonempty by done. rewrite Hstrat.
  rewrite (bind_Ok _ _ _ _ _
             (sequential_pass_returns sch_post addr API_POST (entities self) s
                API_POST_valid Hne Hpost)).
  rewrite (bind_Ok _ _ _ _ _
             (sequential_pass_returns sch_sync addr API_SYNC (entities self)
                (mkState (world_after API_POST (entities self) (world s))
                   (trace s ++ EvDo SequentialStrategy API_POST (entities self)
                      :: call_events API_POST (entities self)))
                API_SYNC_valid Hne Hsync)).
  simpl. by rewrite <- app_assoc.
Qed.


Lemma enqueue_all_spec (new_entities : list Entity) self s :
  enqueue_all new_entities self s
  = (mkApiBatcher (entities self ++ new_entities) (strategy self), s, Ok PyNone).
Proof.
  revert self. induction new_entities as [|entity rest IH]; intros self; simpl.
  - rewrite app_nil_r. by destruct self.
  - rewrite IH. simpl. by rewrite <- app_assoc.
Qed.

(** X3: enqueueing entities one by one appends them, in call order and
    with duplicates kept, behind the entities already queued; it changes
    neither the strategy nor the world nor the trace, and never raises. *)
Theorem enqueue_all_appends (new_entities : list Entity) self s :
  enqueue_all new_entities self s
  = (mkApiBatcher (entities self ++ new_entities) (strategy self), s, Ok PyNone).
Proof. apply enqueue_all_spec. Qed.

(** X4: with an instance of the sequential strategy and a non-empty queue,
    when in the run every entity's POST returns and then every entity's
    SYNC returns, [push] returns None and has made exactly these calls, in
    this order: POST on every queued entity in queue order, then SYNC on
    every queued entity in queue order. *)
Theorem push_sequential_succeeds sch_post sch_sync self addr s :
  strategy self = InstanceOf SequentialStrategy addr →
  entities self ≠ [] →
  all_return API_POST (entities self) (world s) →
  all_return API_SYNC (entities self)
    (world_after API_POST (entities self) (world s)) →
  push sch_post sch_sync self s
  = (self,
     mkState
       (world_after API_SYNC (entities self)
          (world_after API_POST (entities self) (world s)))
       (trace s
        ++ EvDo SequentialStrategy API_POST (entities self)
           :: call_events API_POST (entities self)
        ++ EvDo SequentialStrategy API_SYNC (entities self)
           :: call_events API_SYNC (entities self)),
     Ok PyNone).
Proof. apply push_sequential_passes. Qed.

(** X5: with an instance of the sequential strategy, when in the run the
    POST of a queued entity raises after the POST of the entities before it
    returned, [push] raises that entity's error; POST was called on the
    entities up to the failing one, on none behind it, and SYNC was called
    on no entity at all. *)
Theorem push_sequential_post_failure sch_post sch_sync self addr
    pre entity post s w x :
  strategy self = InstanceOf SequentialStrategy addr →
  entities self = pre ++ entity :: post →
  all_return API_POST pre (world s) →
  invoke entity API_POST (world_after API_POST pre (world s)) = (w, inl x) →
  push sch_post sch_sync self s
  = (self,
     mkState w
       (trace s ++ EvDo SequentialStrategy API_POST (entities self)
          :: call_events API_POST pre ++ [EvCall entity API_POST]),
     Raise (EntityFailure x)).
Proof.
  intros Hstrat Hq Hpre Hi.
  rewrite push_nonempty by (rewrite Hq; by destruct pre). rewrite Hstrat, Hq.
  by rewrite (bind_Raise _ _ _ _ _
                (sequential_pass_raises sch_post addr API_POST pre entity post s
                   w x API_POST_valid Hpre Hi)).
Qed.

(** X6: with an instance of the sequential strategy, when in the run every
    POST returns and then the SYNC of a queued entity raises after the
    SYNC of the entities before it returned, [push] raises that entity's
    error with every entity posted and the entities behind the failing one
    never synced. *)
Theorem push_sequential_sync_failure sch_post sch_sync self addr
    pre entity post s w x :
  strategy self = InstanceOf SequentialStrategy addr →
  entities self = pre ++ entity :: post →
  all_return API_POST (entities self) (world s) →
  all_return API_SYNC pre (world_after API_POST (entities self) (world s)) →
  invoke entity API_SYNC
    (world_after API_SYNC pre
       (world_after API_POST (entities self) (world s)))
  = (w, inl x) →
  push sch_post sch_sync self s
  = (self,
     mkState w
       (trace s
        ++ EvDo SequentialStrategy API_POST (entities self)
           :: call_events API_POST (entities self)
        ++ EvDo SequentialStrategy API_SYNC (entities self)
           :: call_events API_SYNC pre ++ [EvCall entity API_SYNC]),
     Raise (EntityFailure x)).
Proof.
  intros Hstrat Hq Hpost Hpre Hi.
  assert (entities self ≠ []) as Hne by (rewrite Hq; by destruct pre).
  rewrite push_nonempty by done. rewrite Hstrat.
  rewrite (bind_Ok _ _ _ _ _
             (sequential_pass_returns sch_post addr API_POST (entities self) s
                API_POST_valid Hne Hpost)).
  pose proof (sequential_pass_raises sch_sync addr API_SYNC pre entity post
                (mkState (world_after API_POST (entities self) (world s))
                   (trace s ++ EvDo SequentialStrategy API_POST (entities self)
                      :: call_events API_POST (entities self)))
                w x API_SYNC_valid Hpre Hi) as Hsync.
  rewrite <- Hq in Hsync. rewrite (bind_Raise _ _ _ _ _ Hsync).
  simpl. by rewrite <- app_assoc.
Qed.


(** X8: [push] keeps the queue, so a second [push] does all of it again:
    with an instance of the sequential strategy, when every POST and every
    SYNC of the two runs returns, two pushes in a row return None and call
    POST, SYNC, POST and SYNC on every queued entity. *)
Theorem push_twice_posts_twice sch_post sch_sync self addr s :
  strategy self = InstanceOf SequentialStrategy addr →
  entities self ≠ [] →
  let w1 := world_after API_POST (entities self) (world s) in
  let w2 := world_after API_SYNC (entities self) w1 in
  let w3 := world_after API_POST (entities self) w2 in
  let w4 := world_after API_SYNC (entities self) w3 in
  all_return API_POST (entities self) (world s) →
  all_return API_SYNC (entities self) w1 →
  all_return API_POST (entities self) w2 →
  all_return API_SYNC (entities self) w3 →
  ∃ s1 s2,
    push sch_post sch_sync self s = (self, s1, Ok PyNone) ∧
    push sch_post sch_sync self s1 = (self, s2, Ok PyNone) ∧
    world s2 = w4 ∧
    filter is_call (trace s2)
    = filter is_call (trace s)
      ++ call_events API_POST (entities self)
      ++ call_events API_SYNC (entities self)
      ++ call_events API_POST (entities self)
      ++ call_events API_SYNC (entities self).
Proof.
  intros Hstrat Hne w1 w2 w3 w4 Hpost1 Hsync1 Hpost2 Hsync2.
  pose proof (push_sequential_passes sch_post sch_sync self addr s
                Hstrat Hne Hpost1 Hsync1) as Hpush1.
  eexists _, _. split; [exact Hpush1|].
  split; [by apply (push_sequential_passes sch_post sch_sync self addr)|].
  split; [done|]. simpl.
  repeat (rewrite ?filter_app, ?filter_calls;
          rewrite ?filter_cons_False by (simpl; tauto)).
  by rewrite <- !app_assoc.
Qed.




(** X10: a batcher built with no injected strategy and a recognized
    configuration value holds the class object, and it can never push:
    once entities are queued, [push] raises a TypeError before any strategy
    body is entered, with the state unchanged. *)
Theorem recognized_mode_push_fails API_MODE cls g
    (new_entities : list Entity) sch_post sch_sync s :
  reachable g → recognized API_MODE = Some cls → new_entities ≠ [] →
  let b := (enqueue_all new_entities (init None API_MODE g).2 s).1.1 in
  strategy b = ClassObj cls ∧
  ∃ msg, push sch_post sch_sync b s = (b, s, Raise (TypeError msg)).
Proof.
  intros [Hlit _]%reachable_table_inv Hrec Hne b. subst b.
  unfold init, defaultdict_getitem. rewrite (Hlit _ _ Hrec).
  rewrite enqueue_all_spec. simpl. split; [done|].
  eexists. rewrite push_nonempty by done. reflexivity.
Qed.

(** X11: with an instance of the batch strategy and a non-empty queue,
    [push] raises NotImplemented out of the POST call: the world is
    untouched, no entity's action is called and SYNC is never reached. *)
Theorem push_batch_not_implemented sch_post sch_sync self addr s :
  strategy self = InstanceOf BatchStrategy addr →
  entities self ≠ [] →
  push sch_post sch_sync self s
  = (self,
     mkState (world s) (trace s ++ [EvDo BatchStrategy API_POST (entities self)]),
     Raise NotImplemented).
Proof.
  intros Hstrat Hne. rewrite push_nonempty by done. by rewrite Hstrat.
Qed.

End WithEntities.

(** ** The table of default strategies, continued *)

Lemma getitem_lookup key g :
  API_STRATEGY (defaultdict_getitem key g).1 !! key
  = Some (defaultdict_getitem key g).2.
Proof.
  unfold defaultdict_getitem.
  destruct (API_STRATEGY g !! key) as [v|] eqn:Hkey; simpl; [done|].
  by rewrite lookup_insert_eq.
Qed.

Lemma getitem_grows key g :
  API_STRATEGY g ⊆ API_STRATEGY (defaultdict_getitem key g).1.
Proof.
  unfold defaultdict_getitem.
  destruct (API_STRATEGY g !! key) as [v|] eqn:Hkey; simpl; [done|].
  by apply insert_subseteq.
Qed.

Lemma getitem_again key g :
  defaultdict_getitem key (defaultdict_getitem key g).1
  = defaultdict_getitem key g.
Proof.
  pose proof (getitem_lookup key g) as Hkey.
  unfold defaultdict_getitem at 1. rewrite Hkey. by destruct (defaultdict_getitem key g).
Qed.

(** No two keys of the table hold the same instance. *)
Lemma reachable_instances_distinct g :
  reachable g →
  ∀ k1 k2 c1 c2 addr,
    API_STRATEGY g !! k1 = Some (InstanceOf c1 addr) →
    API_STRATEGY g !! k2 = Some (InstanceOf c2 addr) →
    k1 = k2.
Proof.
  assert (∀ g key c addr, table_inv g →
            API_STRATEGY g !! key = Some (InstanceOf c addr) →
            addr < next_addr g) as Hbound.
  { intros g0 key c addr [Hlit Hdef] Hkey.
    destruct (recognized key) as [cls|] eqn:Hrec.
    - rewrite (Hlit _ _ Hrec) in Hkey. discriminate.
    - destruct (Hdef _ _ Hrec Hkey) as (a & [= _ <-] & Hlt). done. }
  induction 1 as [|cls g Hreach IH|key g Hreach IH]; intros k1 k2 c1 c2 addr.
  - intros H1. apply (Hbound _ _ _ _ table_inv_initial) in H1. simpl in H1. lia.
  - apply IH.
  - pose proof (reachable_table_inv g Hreach) as Hinv.
    unfold defaultdict_getitem.
    destruct (API_STRATEGY g !! key) as [v|] eqn:Hkey; simpl; [apply IH|].
    destruct (decide (key = k1)) as [<-|Hne1];
      destruct (decide (key = k2)) as [<-|Hne2]; [done|..].
    + rewrite lookup_insert_eq, lookup_insert_ne by done.
      intros [= <- <-] H2. apply (Hbound _ _ _ _ Hinv) in H2. lia.
    + rewrite lookup_insert_ne, lookup_insert_eq by done.
      intros H1 [= <- <-]. apply (Hbound _ _ _ _ Hinv) in H1. lia.
    + rewrite !lookup_insert_ne by done. apply IH.
Qed.

Section WithEntities.
Context `{EntityAPI}.

(** X12: the table of default strategies is a cache.  Building a second
    batcher with no injected strategy and the same configuration value
    leaves the table as the first construction left it and selects the
    very same strategy object; and a construction never changes or removes
    an entry that the table already had. *)
Theorem init_default_is_cached API_MODE g :
  init None API_MODE (init None API_MODE g).1 = init None API_MODE g ∧
  API_STRATEGY g ⊆ API_STRATEGY (init None API_MODE g).1.
Proof.
  unfold init.
  pose proof (getitem_again API_MODE g) as Hagain.
  pose proof (getitem_grows API_MODE g) as Hgrows.
  destruct (defaultdict_getitem API_MODE g) as [g1 v1]. simpl in *.
  by rewrite Hagain.
Qed.

(** X13: batchers built with no injected strategy from two different
    configuration values never hold the same strategy object. *)
Theorem init_distinct_modes_distinct_strategies mode1 mode2 g :
  reachable g → mode1 ≠ mode2 →
  strategy (init None mode1 g).2
  ≠ strategy (init None mode2 (init None mode1 g).1).2.
Proof.
  intros Hreach Hne.
  assert (strategy (init None mode1 g).2 = (defaultdict_getitem mode1 g).2) as ->.
  { unfold init. by destruct (defaultdict_getitem mode1 g). }
  assert ((init None mode1 g).1 = (defaultdict_getitem mode1 g).1) as ->.
  { unfold init. by destruct (defaultdict_getitem mode1 g). }
  set (g1 := (defaultdict_getitem mode1 g).1).
  assert (strategy (init None mode2 g1).2 = (defaultdict_getitem mode2 g1).2) as ->.
  { unfold init. by destruct (defaultdict_getitem mode2 g1). }
  set (g2 := (defaultdict_getitem mode2 g1).1).
  assert (reachable g2) as Hreach2 by by do 2 apply reach_getitem.
  pose proof (getitem_lookup mode2 g1) as H2. fold g2 in H2.
  pose proof (lookup_weaken _ _ _ _ (getitem_lookup mode1 g)
                (getitem_grows mode2 g1)) as H1. fold g2 in H1.
  intros Heq. rewrite <- Heq in H2. apply Hne.
  destruct ((defaultdict_getitem mode1 g).2) as [cls|cls addr].
  - destruct (reachable_table_inv g2 Hreach2) as [Hlit Hdef].
    assert (∀ key, API_STRATEGY g2 !! key = Some (ClassObj cls) →
                   recognized key = Some cls) as Hcls.
    { intros key Hkey. destruct (recognized key) as [c|] eqn:Hrec.
      - rewrite (Hlit _ _ Hrec) in Hkey. congruence.
      - destruct (Hdef _ _ Hrec Hkey) as (a & [=] & _). }
    apply Hcls in H1, H2.
    destruct (recognized_cases mode1)
      as [[-> E1]|[[-> E1]|[[-> E1]|(_ & _ & _ & E1)]]];
      destruct (recognized_cases mode2)
        as [[-> E2]|[[-> E2]|[[-> E2]|(_ & _ & _ & E2)]]];
      congruence.
  - by eapply (reachable_instances_distinct g2 Hreach2).
Qed.

End WithEntities.

End BatcherFacts.

(** * Properties of the Post entity *)
Module PostFacts.
Import Strategy Batcher Client PostEntity Main StrategyProofs BatcherFacts.

Implicit Types (w : net) (self : nat) (p : Post) (queue : list nat) (s : state).

Lemma invoke_post self w : invoke self API_POST w = Post_post self w.
Proof. reflexivity. Qed.

Lemma invoke_sync self w : invoke self API_SYNC w = Post_sync self w.
Proof. reflexivity. Qed.

Lemma requests_call_up r w :
  network_up w →
  ∃ w1,
    requests_call r w = (w1, None) ∧ heap w1 = heap w ∧
    sent w1 = sent w ++ [r] ∧ randoms w1 = randoms w ∧ network_up w1.
Proof.
  unfold network_up, requests_call. intros Hup.
  destruct (replies w) as [|reply rest].
  - eexists. split_and!; [done..|]. constructor.
  - apply Forall_cons in Hup as [-> Hrest]. eexists. by split_and!.
Qed.

Lemma randint_spec a b w :
  a ≤ b →
  a ≤ (randint a b w).2 ≤ b ∧ heap (randint a b w).1 = heap w ∧
  sent (randint a b w).1 = sent w ∧ replies (randint a b w).1 = replies w.
Proof.
  intros Hab. unfold randint. destruct (randoms w) as [|r rest]; simpl.
  - split_and!; [lia|lia|done..].
  - split_and!; [lia| |done..].
    pose proof (Nat.mod_upper_bound r (b - a + 1)). lia.
Qed.

Lemma Post_post_up self p w :
  heap w !! self = Some p → network_up w →
  ∃ w' n,
    Post_post self w = (w', inr ()) ∧ n ≤ 100 ∧
    heap w' = <[self := mkPost (data p) (Some n)]> (heap w) ∧
    sent w' = sent w ++ [post_request (data p)] ∧
    network_up w'.
Proof.
  intros Hself Hup. unfold Post_post. rewrite Hself.
  destruct (requests_call_up (post_request (data p)) w Hup)
    as (w1 & -> & Hheap & Hsent & _ & Hup1).
  destruct (randint_spec 0 100 w1) as ([_ Hn] & Hheap2 & Hsent2 & Hrep2); [lia|].
  destruct (randint 0 100 w1) as [w2 n]. simpl in *.
  eexists _, n. split_and!; [done|done|simpl..].
  - by rewrite Hheap2, Hheap.
  - by rewrite Hsent2, Hsent.
  - unfold network_up in *. simpl. by rewrite Hrep2.
Qed.

Lemma Post_sync_up self p w :
  heap w !! self = Some p → network_up w →
  ∃ w',
    Post_sync self w = (w', inr ()) ∧ heap w' = heap w ∧
    sent w' = sent w ++ [sync_request (id p)] ∧ network_up w'.
Proof.
  intros Hself Hup. unfold Post_sync. rewrite Hself.
  destruct (requests_call_up (sync_request (id p)) w Hup)
    as (w1 & -> & Hheap & Hsent & _ & Hup1).
  by exists w1.
Qed.

Lemma omap_heap_ext {B} (f : option Post → option B) (h1 h2 : gmap nat Post) queue :
  (∀ a, a ∈ queue → h1 !! a = h2 !! a) →
  omap (λ a, f (h1 !! a)) queue = omap (λ a, f (h2 !! a)) queue.
Proof.
  induction queue as [|a rest IH]; intros Hext; simpl; [done|].
  rewrite (Hext a) by by left.
  assert (omap (λ a, f (h1 !! a)) rest = omap (λ a, f (h2 !! a)) rest) as Hrest.
  { apply IH. intros b Hb. apply Hext. by right. }
  destruct (f (h2 !! a)); [f_equal|]; exact Hrest.
Qed.

(** The POST loop over distinct objects while the network is up. *)
Lemma for_each_post_up queue s :
  NoDup queue →
  (∀ a, a ∈ queue → is_Some (heap (world s) !! a)) →
  network_up (world s) →
  ∃ s' ids,
    for_each API_POST queue s = (s', Ok ()) ∧
    length ids = length queue ∧
    Forall (λ n, n ≤ 100) ids ∧
    network_up (world s') ∧
    (∀ a, a ∉ queue → heap (world s') !! a = heap (world s) !! a) ∧
    (∀ i a, queue !! i = Some a →
       ∃ p n, heap (world s) !! a = Some p ∧ ids !! i = Some n ∧
              heap (world s') !! a = Some (mkPost (data p) (Some n))) ∧
    sent (world s')
    = sent (world s)
      ++ omap (λ a, (post_request ∘ data) <$> heap (world s) !! a) queue.
Proof.
  revert s. induction queue as [|a rest IH]; intros s Hnodup Halloc Hup.
  - exists s, []. simpl. split_and!; try done. by rewrite app_nil_r.
  - apply NoDup_cons in Hnodup as [Ha Hnodup].
    destruct (Halloc a) as [p Hp]; [by left|].
    destruct (Post_post_up a p (world s) Hp Hup)
      as (w1 & n & Hpost & Hn & Hheap1 & Hsent1 & Hup1).
    set (s1 := @mkState post_api w1 (trace s ++ [@EvCall post_api a API_POST])).
    destruct (IH s1) as (s' & ids & Hloop & Hlen & Hids & Hup' & Hout & Hin & Hsent');
      [done| |done|].
    { intros b Hb. simpl. rewrite Hheap1.
      rewrite lookup_insert_ne by (intros ->; done). apply Halloc. by right. }
    exists s', (n :: ids). split_and!.
    + simpl. rewrite (bind_Ok _ _ _ _ _ (call_Ok (H:=post_api) a API_POST s w1 () Hpost)).
      exact Hloop.
    + simpl. by rewrite Hlen.
    + by constructor.
    + done.
    + intros b Hb. apply not_elem_of_cons in Hb as [Hne Hb].
      rewrite (Hout b Hb). simpl. rewrite Hheap1. by rewrite lookup_insert_ne.
    + intros [|i] b Hb; simpl in Hb.
      * injection Hb as <-. exists p, n. split_and!; [done..|].
        rewrite (Hout a Ha). simpl. rewrite Hheap1. by rewrite lookup_insert_eq.
      * destruct (Hin i b Hb) as (p' & n' & Hp' & Hn' & Hfin).
        exists p', n'. split_and!; [|done..].
        simpl in Hp'. rewrite Hheap1 in Hp'.
        rewrite lookup_insert_ne in Hp'; [done|].
        intros ->. apply Ha. by eapply list_elem_of_lookup_2.
    + rewrite Hsent'. simpl. rewrite Hsent1, Hp. simpl.
      rewrite <- app_assoc. simpl. f_equal. f_equal.
      apply omap_heap_ext. intros b Hb. rewrite Hheap1.
      rewrite lookup_insert_ne; [done|]. by intros ->.
Qed.

(** The SYNC loop while the network is up. *)
Lemma for_each_sync_up queue s :
  (∀ a, a ∈ queue → is_Some (heap (world s) !! a)) →
  network_up (world s) →
  ∃ s',
    for_each API_SYNC queue s = (s', Ok ()) ∧
    heap (world s') = heap (world s) ∧
    network_up (world s') ∧
    sent (world s')
    = sent (world s)
      ++ omap (λ a, (sync_request ∘ id) <$> heap (world s) !! a) queue.
Proof.
  revert s. induction queue as [|a rest IH]; intros s Halloc Hup.
  - exists s. simpl. split_and!; try done. by rewrite app_nil_r.
  - destruct (Halloc a) as [p Hp]; [by left|].
    destruct (Post_sync_up a p (world s) Hp Hup)
      as (w1 & Hsync & Hheap1 & Hsent1 & Hup1).
    set (s1 := @mkState post_api w1 (trace s ++ [@EvCall post_api a API_SYNC])).
    destruct (IH s1) as (s' & Hloop & Hheap' & Hup' & Hsent'); [|done|].
    { intros b Hb. simpl. rewrite Hheap1. apply Halloc. by right. }
    exists s'. split_and!.
    + simpl.
      rewrite (bind_Ok _ _ _ _ _ (call_Ok (H:=post_api) a API_SYNC s w1 () Hsync)).
      exact Hloop.
    + by rewrite Hheap'.
    + done.
    + rewrite Hsent'. simpl. rewrite Hsent1, Hheap1, Hp. simpl.
      by rewrite <- app_assoc.
Qed.

Lemma sync_requests_of_ids (h : gmap nat Post) queue (ids : list nat) :
  length ids = length queue →
  (∀ i a, queue !! i = Some a →
     ∃ d n, ids !! i = Some n ∧ h !! a = Some (mkPost d (Some n))) →
  omap (λ a, (sync_request ∘ id) <$> h !! a) queue
  = (λ n, sync_request (Some n)) <$> ids.
Proof.
  revert ids. induction queue as [|a rest IH]; intros [|n ids] Hlen Hids;
    simpl in *; try done.
  destruct (Hids 0 a eq_refl) as (d & n' & [= <-] & Ha). rewrite Ha. simpl.
  f_equal. apply IH; [lia|]. intros i b Hb. apply (Hids (S i) b Hb).
Qed.

Lemma sequential_pass_Ok sch addr action queue s s' :
  action ∈ valid_actions → queue ≠ [] →
  for_each action queue
    (mkState (world s) (trace s ++ [EvDo SequentialStrategy action queue]))
  = (s', Ok ()) →
  strategy_do sch (InstanceOf SequentialStrategy addr) action queue s
  = (s', Ok PyNone).
Proof.
  intros Hin Hne Hloop. rewrite strategy_do_instance. simpl.
  unfold SequentialStrategy_do.
  rewrite (bind_Ok _ _ _ _ _ (BaseStrategy_do_pass (H:=post_api) _ _ _ Hin Hne)).
  by rewrite (bind_Ok _ _ _ _ _ Hloop).
Qed.

Lemma push_posts_sequential_spec sch_post sch_sync (self : ApiBatcher) addr s :
  strategy self = InstanceOf SequentialStrategy addr →
  entities self ≠ [] →
  NoDup (entities self) →
  (∀ a, a ∈ entities self → is_Some (heap (world s) !! a)) →
  network_up (world s) →
  ∃ s' ids,
    push sch_post sch_sync self s = (self, s', Ok PyNone) ∧
    length ids = length (entities self) ∧
    Forall (λ n, n ≤ 100) ids ∧
    (∀ i a, entities self !! i = Some a →
       ∃ p n, heap (world s) !! a = Some p ∧ ids !! i = Some n ∧
              heap (world s') !! a = Some (mkPost (data p) (Some n))) ∧
    (∀ a, a ∉ entities self → heap (world s') !! a = heap (world s) !! a) ∧
    sent (world s')
    = sent (world s)
      ++ omap (λ a, (post_request ∘ data) <$> heap (world s) !! a) (entities self)
      ++ ((λ n, sync_request (Some n)) <$> ids).
Proof.
  intros Hstrat Hne Hnodup Halloc Hup.
  set (queue := entities self) in *.
  set (s0 := @mkState post_api (world s)
               (trace s ++ [@EvDo post_api SequentialStrategy API_POST queue])).
  destruct (for_each_post_up queue s0 Hnodup Halloc Hup)
    as (s1 & ids & Hloop1 & Hlen & Hids & Hup1 & Hout & Hin & Hsent1).
  set (s1' := @mkState post_api (world s1)
                (trace s1 ++ [@EvDo post_api SequentialStrategy API_SYNC queue])).
  destruct (for_each_sync_up queue s1') as (s2 & Hloop2 & Hheap2 & Hup2 & Hsent2);
    [|done|].
  { intros a Ha. destruct (list_elem_of_lookup_1 _ _ Ha) as [i Hi].
    destruct (Hin i a Hi) as (p & n & _ & _ & Hfin). simpl. by rewrite Hfin. }
  exists s2, ids. split_and!; try done.
  - rewrite push_nonempty by done. fold queue. rewrite Hstrat.
    rewrite (bind_Ok _ _ _ _ _
               (sequential_pass_Ok sch_post addr API_POST queue s s1
                  API_POST_valid Hne Hloop1)).
    by rewrite (bind_Ok _ _ _ _ _
               (sequential_pass_Ok sch_sync addr API_SYNC queue s1 s2
                  API_SYNC_valid Hne Hloop2)).
  - intros i a Hi. destruct (Hin i a Hi) as (p & n & Hp & Hn & Hfin).
    exists p, n. split_and!; [done..|]. by rewrite Hheap2.
  - intros a Ha. rewrite Hheap2. simpl. by apply Hout.
  - rewrite Hsent2. simpl. rewrite Hsent1. simpl. rewrite <- app_assoc.
    do 2 f_equal. apply sync_requests_of_ids; [done|].
    intros i a Hi. destruct (Hin i a Hi) as (p & n & _ & Hn & Hfin).
    by exists (data p), n.
Qed.

(** X14: a [push] of distinct Post objects through an instance of the
    sequential strategy, while the network answers every request: [push]
    returns None; every queued Post has got an id between 0 and 100 and
    kept its data; no other object changed; and the requests made are one
    POST per Post, in queue order, each with the Post's data as title and
    body, followed by one GET per Post, in queue order, each to the URL of
    the id that the Post has just got. *)
Theorem push_posts_sequential sch_post sch_sync (self : ApiBatcher) addr s :
  strategy self = InstanceOf SequentialStrategy addr →
  entities self ≠ [] →
  NoDup (entities self) →
  (∀ a, a ∈ entities self → is_Some (heap (world s) !! a)) →
  network_up (world s) →
  ∃ s' ids,
    push sch_post sch_sync self s = (self, s', Ok PyNone) ∧
    length ids = length (entities self) ∧
    Forall (λ n, n ≤ 100) ids ∧
    (∀ i a, entities self !! i = Some a →
       ∃ p n, heap (world s) !! a = Some p ∧ ids !! i = Some n ∧
              heap (world s') !! a = Some (mkPost (data p) (Some n))) ∧
    (∀ a, a ∉ entities self → heap (world s') !! a = heap (world s) !! a) ∧
    sent (world s')
    = sent (world s)
      ++ omap (λ a, (post_request ∘ data) <$> heap (world s) !! a) (entities self)
      ++ ((λ n, sync_request (Some n)) <$> ids).
Proof. apply push_posts_sequential_spec. Qed.

(** X15: when the request of [post] raises, the Post keeps the id it had
    and no number is drawn; a [sync] after it asks for that old id, which
    for a Post that never got one is the URL ending in /posts/None. *)
Theorem failed_post_then_sync self p w err rest :
  heap w !! self = Some p →
  replies w = Some err :: rest →
  ∃ w1 w2 r2,
    invoke self API_POST w = (w1, inl err) ∧
    heap w1 = heap w ∧ randoms w1 = randoms w ∧
    invoke self API_SYNC w1 = (w2, r2) ∧
    heap w2 = heap w ∧
    sent w2 = sent w ++ [post_request (data p); sync_request (id p)] ∧
    (id p = None →
     sync_request (id p)
     = HttpGet "http://jsonplaceholder.typicode.com//posts/None").
Proof.
  intros Hself Hreplies.
  set (w1 := mkNet (heap w) (sent w ++ [post_request (data p)]) rest (randoms w)).
  assert (invoke self API_POST w = (w1, inl err)) as Hpost.
  { rewrite invoke_post. unfold Post_post, requests_call.
    by rewrite Hself, Hreplies. }
  assert (∃ reply,
            Post_sync self w1
            = (mkNet (heap w)
                 (sent w ++ [post_request (data p); sync_request (id p)])
                 (tail rest) (randoms w), reply)) as [reply Hsync].
  { unfold Post_sync, requests_call. simpl. rewrite Hself.
    destruct rest as [|[e|] rest']; simpl; rewrite <- app_assoc; by eexists. }
  eexists w1, _, reply. split_and!; [done..|exact Hsync|done|done|].
  by intros ->.
Qed.

(** X16: whatever method name is looked up on a Post and whatever the
    network does, the call leaves every other object as it was, keeps the
    data of its own object, creates and removes no object, and adds at most
    one request behind the requests already made. *)
Theorem post_methods_frame (self : nat) (action : string) (w : net) :
  let w' : net := (invoke self action w).1 in
  (∀ a, a ≠ self → heap w' !! a = heap w !! a) ∧
  data <$> heap w' !! self = data <$> heap w !! self ∧
  (∀ a, is_Some (heap w' !! a) ↔ is_Some (heap w !! a)) ∧
  (sent w' = sent w ∨ ∃ r, sent w' = sent w ++ [r]).
Proof.
  assert (∀ r, heap (requests_call r w).1 = heap w ∧
               randoms (requests_call r w).1 = randoms w ∧
               sent (requests_call r w).1 = sent w ++ [r]) as Hcall.
  { intros r. unfold requests_call. by destruct (replies w). }
  simpl. repeat case_decide; simpl.
  - unfold Post_post. destruct (heap w !! self) as [p|] eqn:Hself;
      [|simpl; rewrite ?Hself; split_and!; [done|done|by intros|by left]].
    destruct (Hcall (post_request (data p))) as (Hh & _ & Hs).
    destruct (requests_call (post_request (data p)) w) as [w1 [e|]]; simpl in *.
    + rewrite Hh, Hs, Hself. split_and!; [done..|]. right. by eexists.
    + destruct (randint_spec 0 100 w1) as (_ & Hh2 & Hs2 & _); [lia|].
      destruct (randint 0 100 w1) as [w2 n]. simpl in *.
      rewrite Hh2, Hs2, Hh, Hs. split_and!.
      * intros a Ha. by rewrite lookup_insert_ne.
      * by rewrite lookup_insert_eq.
      * intros a. destruct (decide (self = a)) as [<-|Hne].
        -- rewrite lookup_insert_eq, ?Hself. split; by eexists.
        -- by rewrite lookup_insert_ne.
      * right. by eexists.
  - unfold Post_sync. destruct (heap w !! self) as [p|] eqn:Hself;
      [|simpl; rewrite ?Hself; split_and!; [done|done|by intros|by left]].
    destruct (Hcall (sync_request (id p))) as (Hh & _ & Hs).
    destruct (requests_call (sync_request (id p)) w) as [w1 [e|]]; simpl in *;
      rewrite Hh, Hs, Hself; (split_and!; [done..|]); right; by eexists.
  - split_and!; [done|done|by intros|by left].
  - split_and!; [done|done|by intros|by left].
Qed.

(** *** A network that is down *)

Lemma network_down_split n m w :
  network_down (n + m) w →
  network_down n w ∧
  ∀ w', replies w' = drop n (replies w) → network_down m w'.
Proof.
  unfold network_down. intros [Hlen Hall].
  rewrite <- take_take_drop in Hall. apply Forall_app in Hall as [Hn Hm].
  split; [split; [lia|done]|].
  intros w' ->. rewrite length_drop. split; [lia|done].
Qed.

Lemma network_down_S m w :
  network_down (S m) w →
  ∃ err rest,
    replies w = Some err :: rest ∧
    ∀ w', replies w' = rest → network_down m w'.
Proof.
  unfold network_down. intros [Hlen Hall].
  destruct (replies w) as [|reply rest]; simpl in *; [lia|].
  apply Forall_cons in Hall as [[err ->] Hall].
  exists err, rest. split; [done|]. intros w' ->. split; [lia|done].
Qed.

Lemma invoke_down self p action w err rest :
  heap w !! self = Some p → action ∈ valid_actions →
  replies w = Some err :: rest →
  invoke self action w
  = (mkNet (heap w) (sent w ++ [method_request action p]) rest (randoms w),
     inl err).
Proof.
  intros Hself [->| ->]%valid_actions_spec Hreplies.
  - rewrite invoke_post. unfold Post_post, requests_call.
    by rewrite Hself, Hreplies.
  - rewrite invoke_sync. unfold Post_sync, requests_call.
    by rewrite Hself, Hreplies.
Qed.

(** The pool and the [as_completed] loop while every request raises. *)
Lemma run_schedule_down action queue sch futs s :
  action ∈ valid_actions →
  (∀ a, a ∈ queue → is_Some (heap (world s) !! a)) →
  network_down (length (omap (queue !!.) (runs sch))) (world s) →
  (∀ i r, futs !! i = Some r → ∃ err, r = inl err) →
  ∃ s' futs' evs,
    run_schedule action queue sch futs s = (s', Ok futs') ∧
    heap (world s') = heap (world s) ∧
    randoms (world s') = randoms (world s) ∧
    replies (world s')
    = drop (length (omap (queue !!.) (runs sch))) (replies (world s)) ∧
    sent (world s')
    = sent (world s)
      ++ omap (λ a, method_request action <$> heap (world s) !! a)
           (omap (queue !!.) (runs sch)) ∧
    trace s' = trace s ++ evs ∧
    Forall (λ ev, ¬ is_info ev) evs.
Proof.
  intros Hin. revert futs s.
  induction sch as [|[i|i] rest IH]; intros futs s Halloc Hdown Hfuts.
  - exists s, futs, []. simpl. split_and!; try done; by rewrite app_nil_r.
  - change (runs (Run i :: rest)) with (i :: runs rest) in *.
    cbn [run_schedule]. unfold run_worker.
    change (@Entity post_api) with nat in *.
    destruct (queue !! i) as [a|] eqn:Hqi.
    + assert (omap (queue !!.) (i :: runs rest)
              = a :: omap (queue !!.) (runs rest)) as Homap
        by (simpl; by rewrite Hqi).
      rewrite Homap in *. simpl in Hdown.
      destruct (network_down_S _ _ Hdown) as (err & tl & Hreplies & Hdown').
      destruct (Halloc a) as [p Hp]; [by eapply list_elem_of_lookup_2|].
      unfold mbind at 1, M_bind at 1. cbv beta.
      rewrite (invoke_down a p action (world s) err tl Hp Hin Hreplies).
      set (w1 := mkNet (heap (world s))
                   (sent (world s) ++ [method_request action p]) tl
                   (randoms (world s))).
      set (s1 := @mkState post_api w1 (trace s ++ [@EvCall post_api a action])).
      destruct (IH (<[i := inl err]> futs) s1)
        as (s' & futs' & evs & Hrun & Hheap & Hrand & Hrep & Hsent & Htr & Hevs).
      { done. }
      { by apply Hdown'. }
      { intros j r. destruct (decide (i = j)) as [->|Hne].
        - rewrite lookup_insert_eq. intros [= <-]. by eexists.
        - rewrite lookup_insert_ne by done. apply Hfuts. }
      exists s', futs', (@EvCall post_api a action :: evs). split_and!.
      * exact Hrun.
      * by rewrite Hheap.
      * by rewrite Hrand.
      * rewrite Hrep. simpl. by rewrite Hreplies.
      * rewrite Hsent. simpl. rewrite Hp. simpl. by rewrite <- app_assoc.
      * rewrite Htr. simpl. by rewrite <- app_assoc.
      * constructor; [simpl; tauto|done].
    + assert (omap (queue !!.) (i :: runs rest) = omap (queue !!.) (runs rest))
        as Homap by (simpl; by rewrite Hqi).
      rewrite Homap in *. by apply IH.
  - change (runs (Yield i :: rest)) with (runs rest) in *.
    cbn [run_schedule]. unfold report.
    change (@Entity post_api) with nat in *.
    destruct (queue !! i) as [a|]; [destruct (futs !! i) as [r|] eqn:Hfi|];
      [|by apply IH..].
    destruct (Hfuts i r Hfi) as [err ->].
    set (s1 := @mkState post_api (world s)
                 (trace s ++ [@EvLogError post_api a action err])).
    destruct (IH futs s1)
      as (s' & futs' & evs & Hrun & Hheap & Hrand & Hrep & Hsent & Htr & Hevs);
      [done..|].
    exists s', futs', (@EvLogError post_api a action err :: evs).
    split_and!; try done.
    + rewrite Htr. simpl. by rewrite <- app_assoc.
    + constructor; [simpl; tauto|done].
Qed.

Lemma concurrent_pass_down sch addr action queue s :
  action ∈ valid_actions → queue ≠ [] →
  valid_schedule sch (length queue) →
  (∀ a, a ∈ queue → is_Some (heap (world s) !! a)) →
  network_down (length queue) (world s) →
  ∃ s' reqs evs,
    strategy_do sch (InstanceOf ConcurrentStrategy addr) action queue s
    = (s', Ok PyNone) ∧
    heap (world s') = heap (world s) ∧
    randoms (world s') = randoms (world s) ∧
    replies (world s') = drop (length queue) (replies (world s)) ∧
    sent (world s') = sent (world s) ++ reqs ∧
    reqs ≡ₚ omap (λ a, method_request action <$> heap (world s) !! a) queue ∧
    trace s' = trace s ++ evs ∧
    Forall (λ ev, ¬ is_info ev) evs.
Proof.
  intros Hin Hne (Hruns & _ & _) Halloc Hdown.
  assert (omap (queue !!.) (runs sch) ≡ₚ queue) as Hpick.
  { assert (omap (queue !!.) (seq 0 (length queue)) = queue) as Hseq
      by exact (pick_seq (H:=post_api) queue queue 0 ltac:(by intros)).
    by rewrite Hruns, Hseq. }
  rewrite strategy_do_instance. simpl.
  set (s0 := @mkState post_api (world s)
               (trace s ++ [@EvDo post_api ConcurrentStrategy action queue])).
  destruct (run_schedule_down action queue sch ∅ s0 Hin Halloc)
    as (s' & futs & evs & Hrun & Hheap & Hrand & Hrep & Hsent & Htr & Hevs).
  { by rewrite Hpick. }
  { by intros i r ?%lookup_empty_Some. }
  rewrite Hpick in Hrep.
  eexists s', _, (@EvDo post_api ConcurrentStrategy action queue :: evs).
  split_and!; [|done|done|done|exact Hsent| | |].
  - unfold ConcurrentStrategy_do.
    rewrite (bind_Ok _ _ _ _ _ (BaseStrategy_do_pass (H:=post_api) _ _ _ Hin Hne)).
    by rewrite (bind_Ok _ _ _ _ _ Hrun).
  - by rewrite Hpick.
  - rewrite Htr. simpl. by rewrite <- app_assoc.
  - constructor; [simpl; tauto|done].
Qed.

(** X17: a [push] of Post objects through an instance of the concurrent
    strategy while the network is down (each of the 2n requests raises):
    under every pair of valid schedules [push] still returns None.  Every
    request was attempted, one POST and one GET per queued Post, the GETs
    with the ids the Posts had before; no Post changed, no number was drawn,
    and no info record was written. *)
Theorem push_posts_concurrent_network_down sch_post sch_sync
    (self : ApiBatcher) addr s :
  strategy self = InstanceOf ConcurrentStrategy addr →
  entities self ≠ [] →
  valid_schedule sch_post (length (entities self)) →
  valid_schedule sch_sync (length (entities self)) →
  (∀ a, a ∈ entities self → is_Some (heap (world s) !! a)) →
  network_down (2 * length (entities self)) (world s) →
  ∃ s' posts syncs evs,
    push sch_post sch_sync self s = (self, s', Ok PyNone) ∧
    heap (world s') = heap (world s) ∧
    randoms (world s') = randoms (world s) ∧
    sent (world s') = sent (world s) ++ posts ++ syncs ∧
    posts ≡ₚ omap (λ a, (post_request ∘ data) <$> heap (world s) !! a)
               (entities self) ∧
    syncs ≡ₚ omap (λ a, (sync_request ∘ id) <$> heap (world s) !! a)
               (entities self) ∧
    trace s' = trace s ++ evs ∧
    Forall (λ ev, ¬ is_info ev) evs.
Proof.
  intros Hstrat Hne Hsch1 Hsch2 Halloc Hdown.
  set (queue := entities self) in *.
  replace (2 * length queue) with (length queue + length queue) in Hdown by lia.
  destruct (network_down_split _ _ _ Hdown) as [Hdown1 Hdown2].
  destruct (concurrent_pass_down sch_post addr API_POST queue s
              API_POST_valid Hne Hsch1 Halloc Hdown1)
    as (s1 & posts & evs1 & Hdo1 & Hheap1 & Hrand1 & Hrep1 & Hsent1 & Hposts
        & Htr1 & Hevs1).
  destruct (concurrent_pass_down sch_sync addr API_SYNC queue s1
              API_SYNC_valid Hne Hsch2)
    as (s2 & syncs & evs2 & Hdo2 & Hheap2 & Hrand2 & Hrep2 & Hsent2 & Hsyncs
        & Htr2 & Hevs2).
  { intros a Ha. rewrite Hheap1. by apply Halloc. }
  { by apply Hdown2. }
  exists s2, posts, syncs, (evs1 ++ evs2). split_and!.
  - rewrite push_nonempty by done. fold queue. rewrite Hstrat.
    by rewrite (bind_Ok _ _ _ _ _ Hdo1), (bind_Ok _ _ _ _ _ Hdo2).
  - by rewrite Hheap2.
  - by rewrite Hrand2.
  - rewrite Hsent2, Hsent1. by rewrite <- app_assoc.
  - exact Hposts.
  - rewrite Hsyncs, Hheap1. done.
  - rewrite Htr2, Htr1. by rewrite <- app_assoc.
  - apply Forall_app. by split.
Qed.

(** *** The main block *)




End PostFacts.

(** * The further properties at concrete inputs *)
Module DemoWitnesses.
Import Strategy Batcher Client Demo StrategyProofs StrategyFacts BatcherFacts.

Lemma sequential_do_calls_prefix_witness :
  API_POST ∈ valid_actions ∧ [2; 1; 4] ≠ [] ∧
  ((all_return API_POST [2; 1; 4] (world s0) ∧
    SequentialStrategy_do API_POST [2; 1; 4] s0
    = (mkState (world_after API_POST [2; 1; 4] (world s0))
         (trace s0 ++ call_events API_POST [2; 1; 4]),
       Ok PyNone))
   ∨
   (∃ pre entity post w' err,
      [2; 1; 4] = pre ++ entity :: post ∧
      all_return API_POST pre (world s0) ∧
      invoke entity API_POST (world_after API_POST pre (world s0))
      = (w', inl err) ∧
      SequentialStrategy_do API_POST [2; 1; 4] s0
      = (mkState w'
           (trace s0 ++ call_events API_POST pre ++ [EvCall entity API_POST]),
         Raise (EntityFailure err)))).
Proof.
  split_and!; [exact Examples.post_valid|discriminate|].
  exact (sequential_do_calls_prefix (H:=demo_api) API_POST [2; 1; 4] s0
           Examples.post_valid ltac:(discriminate)).
Defined.

Lemma concurrent_log_levels_witness :
  let f := λ entity : nat,
    if Nat.even entity then inr entity else inl "rejected" in
  API_POST ∈ valid_actions ∧ [2; 1; 4] ≠ [] ∧ valid_schedule sch3 3 ∧
  (∀ entity, entity ∈ [2; 1; 4] →
     ∀ w, (invoke entity API_POST w).2 = f entity) ∧
  ∃ s' evs,
    ConcurrentStrategy_do sch3 API_POST [2; 1; 4] s0 = (s', Ok PyNone) ∧
    trace s' = trace s0 ++ evs ∧
    filter is_log evs
    ≡ₚ (λ entity, log_record API_POST entity (f entity)) <$> [2; 1; 4].
Proof.
  intros f.
  split_and!; [exact Examples.post_valid|discriminate|exact Examples.sch3_valid
              |done|].
  exact (concurrent_log_levels sch3 API_POST [2; 1; 4] f s0
           Examples.post_valid ltac:(discriminate) Examples.sch3_valid
           ltac:(done)).
Defined.


Lemma recognized_mode_push_fails_witness :
  reachable initial_globals ∧
  recognized (Some "batch") = Some BatchStrategy ∧
  [2; 4] ≠ [] ∧
  let b := (enqueue_all [2; 4] (init None (Some "batch") initial_globals).2 s0).1.1 in
  strategy b = ClassObj BatchStrategy ∧
  ∃ msg, push sch2 sch2 b s0 = (b, s0, Raise (TypeError msg)).
Proof.
  split_and!; [exact reach_initial|reflexivity|discriminate|].
  exact (recognized_mode_push_fails (Some "batch") BatchStrategy initial_globals
           [2; 4] sch2 sch2 s0 reach_initial eq_refl ltac:(discriminate)).
Defined.

Lemma push_batch_not_implemented_witness :
  let self := mkApiBatcher [2; 4] (InstanceOf BatchStrategy 0) in
  strategy self = InstanceOf BatchStrategy 0 ∧
  entities self ≠ [] ∧
  push sch2 sch2 self s0
  = (self, mkState [] [EvDo BatchStrategy API_POST [2; 4]], Raise NotImplemented).
Proof.
  intros self. split_and!; [done|discriminate|].
  exact (push_batch_not_implemented sch2 sch2 self 0 s0 eq_refl
           ltac:(discriminate)).
Defined.

Lemma init_distinct_modes_distinct_strategies_witness :
  reachable initial_globals ∧
  None ≠ Some "turbo" ∧
  strategy (init None None initial_globals).2
  ≠ strategy (init None (Some "turbo") (init None None initial_globals).1).2.
Proof.
  split_and!; [exact reach_initial|discriminate|].
  exact (init_distinct_modes_distinct_strategies None (Some "turbo")
           initial_globals reach_initial ltac:(discriminate)).
Defined.

End DemoWitnesses.

Module PostWitnesses.
Import Strategy Batcher Client PostEntity Main PostDemo StrategyProofs
  BatcherFacts PostFacts.

Lemma two_posts_allocated :
  ∀ a, a ∈ [0; 1] → is_Some (two_posts !! a).
Proof.
  intros a [->|[->|?%elem_of_nil]%elem_of_cons]%elem_of_cons;
    [by eexists..|done].
Defined.

Lemma sch_valid : valid_schedule sch 2.
Proof. split_and!; [apply perm_swap|reflexivity|reflexivity]. Defined.

Lemma w_up_network_up : network_up w_up.
Proof. repeat constructor. Defined.

Lemma w_down_network_down : network_down 4 w_down.
Proof. split; [simpl; lia|]. repeat constructor; by eexists. Defined.

Lemma push_posts_sequential_witness :
  let self := mkApiBatcher [0; 1] (InstanceOf SequentialStrategy 0) in
  strategy self = InstanceOf SequentialStrategy 0 ∧
  entities self ≠ [] ∧
  NoDup (entities self) ∧
  (∀ a, a ∈ entities self → is_Some (heap (world s_up) !! a)) ∧
  network_up (world s_up) ∧
  ∃ s' ids,
    push [] [] self s_up = (self, s', Ok PyNone) ∧
    length ids = 2 ∧
    Forall (λ n, n ≤ 100) ids ∧
    sent (world s')
    = sent (world s_up)
      ++ omap (λ a, (post_request ∘ data) <$> heap (world s_up) !! a) [0; 1]
      ++ ((λ n, sync_request (Some n)) <$> ids).
Proof.
  intros self.
  assert (NoDup (entities self)) as Hnodup.
  { apply NoDup_cons. split; [by intros ?%list_elem_of_singleton|].
    apply NoDup_singleton. }
  split_and!; [done|discriminate|done|exact two_posts_allocated
              |exact w_up_network_up|].
  destruct (push_posts_sequential [] [] self 0 s_up eq_refl
              ltac:(discriminate) Hnodup two_posts_allocated w_up_network_up)
    as (s' & ids & Hpush & Hlen & Hids & _ & _ & Hsent).
  by exists s', ids.
Defined.

Lemma failed_post_then_sync_witness :
  heap w_down !! 0 = Some (mkPost "first" None) ∧
  replies w_down
  = Some "timeout" :: [Some "timeout"; Some "timeout"; Some "timeout"] ∧
  ∃ w1 w2 r2,
    invoke 0 API_POST w_down = (w1, inl "timeout") ∧
    heap w1 = heap w_down ∧ randoms w1 = randoms w_down ∧
    invoke 0 API_SYNC w1 = (w2, r2) ∧
    heap w2 = heap w_down ∧
    sent w2 = sent w_down ++ [post_request "first"; sync_request None].
Proof.
  split_and!; [reflexivity..|].
  destruct (failed_post_then_sync 0 (mkPost "first" None) w_down "timeout"
              [Some "timeout"; Some "timeout"; Some "timeout"]
              eq_refl eq_refl)
    as (w1 & w2 & r2 & H1 & H2 & H3 & H4 & H5 & H6 & _).
  by exists w1, w2, r2.
Defined.

Lemma push_posts_concurrent_network_down_witness :
  let self := mkApiBatcher [0; 1] (InstanceOf ConcurrentStrategy 0) in
  strategy self = InstanceOf ConcurrentStrategy 0 ∧
  entities self ≠ [] ∧
  valid_schedule sch (length (entities self)) ∧
  (∀ a, a ∈ entities self → is_Some (heap (world s_down) !! a)) ∧
  network_down (2 * length (entities self)) (world s_down) ∧
  ∃ s',
    push sch sch self s_down = (self, s', Ok PyNone) ∧
    heap (world s') = heap (world s_down) ∧
    randoms (world s') = randoms (world s_down).
Proof.
  intros self.
  split_and!; [done|discriminate|exact sch_valid|exact two_posts_allocated
              |exact w_down_network_down|].
  destruct (push_posts_concurrent_network_down sch sch self 0 s_down eq_refl
              ltac:(discriminate) sch_valid sch_valid two_posts_allocated
              w_down_network_down)
    as (s' & posts & syncs & evs & Hpush & Hheap & Hrand & _).
  by exists s'.
Defined.


Lemma push_sequential_succeeds_witness :
  strategy seq_batcher = InstanceOf SequentialStrategy 0 ∧
  entities seq_batcher ≠ [] ∧
  all_return API_POST (entities seq_batcher) (world s_up) ∧
  all_return API_SYNC (entities seq_batcher)
    (world_after API_POST (entities seq_batcher) (world s_up)) ∧
  push [] [] seq_batcher s_up
  = (seq_batcher,
     mkState
       (world_after API_SYNC [0; 1] (world_after API_POST [0; 1] (world s_up)))
       (trace s_up
        ++ EvDo SequentialStrategy API_POST [0; 1] :: call_events API_POST [0; 1]
        ++ EvDo SequentialStrategy API_SYNC [0; 1] :: call_events API_SYNC [0; 1]),
     Ok PyNone).
Proof.
  assert (all_return API_POST (entities seq_batcher) (world s_up)) as Hpost.
  { vm_compute. split_and!; [by eexists..|done]. }
  assert (all_return API_SYNC (entities seq_batcher)
            (world_after API_POST (entities seq_batcher) (world s_up))) as Hsync.
  { vm_compute. split_and!; [by eexists..|done]. }
  split_and!; [done|discriminate|exact Hpost|exact Hsync|].
  exact (push_sequential_succeeds [] [] seq_batcher 0 s_up eq_refl
           ltac:(discriminate) Hpost Hsync).
Defined.

Lemma push_sequential_post_failure_witness :
  strategy seq_batcher = InstanceOf SequentialStrategy 0 ∧
  entities seq_batcher = [] ++ 0 :: [1] ∧
  all_return API_POST [] (world s_down) ∧
  invoke 0 API_POST (world_after API_POST [] (world s_down))
  = (mkNet two_posts [post_request "first"]
       [Some "timeout"; Some "timeout"; Some "timeout"] [7],
     inl "timeout") ∧
  push [] [] seq_batcher s_down
  = (seq_batcher,
     mkState
       (mkNet two_posts [post_request "first"]
          [Some "timeout"; Some "timeout"; Some "timeout"] [7])
       (trace s_down ++ EvDo SequentialStrategy API_POST [0; 1]
          :: call_events API_POST [] ++ [EvCall 0 API_POST]),
     Raise (EntityFailure "timeout")).
Proof.
  split_and!; [done|done|done|reflexivity|].
  exact (push_sequential_post_failure [] [] seq_batcher 0 [] 0 [1] s_down
           _ "timeout" eq_refl eq_refl I eq_refl).
Defined.

Lemma push_sequential_sync_failure_witness :
  let w1 := world_after API_POST [0; 1] (world s_flaky) in
  strategy seq_batcher = InstanceOf SequentialStrategy 0 ∧
  entities seq_batcher = [0] ++ 1 :: [] ∧
  all_return API_POST (entities seq_batcher) (world s_flaky) ∧
  all_return API_SYNC [0] w1 ∧
  (invoke 1 API_SYNC (world_after API_SYNC [0] w1)).2 = inl "timeout" ∧
  push [] [] seq_batcher s_flaky
  = (seq_batcher,
     mkState (invoke 1 API_SYNC (world_after API_SYNC [0] w1)).1
       (trace s_flaky
        ++ EvDo SequentialStrategy API_POST [0; 1] :: call_events API_POST [0; 1]
        ++ EvDo SequentialStrategy API_SYNC [0; 1]
           :: call_events API_SYNC [0] ++ [EvCall 1 API_SYNC]),
     Raise (EntityFailure "timeout")).
Proof.
  intros w1.
  assert (all_return API_POST (entities seq_batcher) (world s_flaky)) as Hpost.
  { vm_compute. split_and!; [by eexists..|done]. }
  assert (all_return API_SYNC [0] w1) as Hpre.
  { vm_compute. split_and!; [by eexists|done]. }
  split_and!; [done|done|exact Hpost|exact Hpre|reflexivity|].
  exact (push_sequential_sync_failure [] [] seq_batcher 0 [0] 1 [] s_flaky
           (invoke 1 API_SYNC (world_after API_SYNC [0] w1)).1 "timeout"
           eq_refl eq_refl Hpost Hpre eq_refl).
Defined.

Lemma push_twice_posts_twice_witness :
  let w1 := world_after API_POST [0; 1] (world s_up) in
  let w2 := world_after API_SYNC [0; 1] w1 in
  let w3 := world_after API_POST [0; 1] w2 in
  let w4 := world_after API_SYNC [0; 1] w3 in
  strategy seq_batcher = InstanceOf SequentialStrategy 0 ∧
  entities seq_batcher ≠ [] ∧
  all_return API_POST [0; 1] (world s_up) ∧
  all_return API_SYNC [0; 1] w1 ∧
  all_return API_POST [0; 1] w2 ∧
  all_return API_SYNC [0; 1] w3 ∧
  ∃ s1 s2,
    push [] [] seq_batcher s_up = (seq_batcher, s1, Ok PyNone) ∧
    push [] [] seq_batcher s1 = (seq_batcher, s2, Ok PyNone) ∧
    world s2 = w4 ∧
    filter is_call (trace s2)
    = filter is_call (trace s_up)
      ++ call_events API_POST [0; 1] ++ call_events API_SYNC [0; 1]
      ++ call_events API_POST [0; 1] ++ call_events API_SYNC [0; 1].
Proof.
  intros w1 w2 w3 w4.
  assert (all_return API_POST [0; 1] (world s_up)) as H1
    by (vm_compute; split_and!; [by eexists..|done]).
  assert (all_return API_SYNC [0; 1] w1) as H2
    by (vm_compute; split_and!; [by eexists..|done]).
  assert (all_return API_POST [0; 1] w2) as H3
    by (vm_compute; split_and!; [by eexists..|done]).
  assert (all_return API_SYNC [0; 1] w3) as H4
    by (vm_compute; split_and!; [by eexists..|done]).
  split_and!; [done|discriminate|exact H1|exact H2|exact H3|exact H4|].
  exact (push_twice_posts_twice [] [] seq_batcher 0 s_up eq_refl
           ltac:(discriminate) H1 H2 H3 H4).
Defined.

End PostWitnesses.
